(** * Reference-counted handles of [smart_pointers.hpp]

    A shallow embedding of [SharedPtr<T>], [WeakPtr<T>], their control
    blocks ([BasePtrCounter] with its two derived classes) and [MakeShared],
    followed by the properties of the counting protocol.

    Objects of the program live at addresses: control blocks in [heap],
    handles in [shared] and [weak].  A member function takes the address
    [this] of its object and runs in a state-and-fault monad; a fault is
    undefined behaviour of the C++ program (a null or dangling block
    pointer is dereferenced, [delete] is applied to the address of a
    member) or an ill-formed use of a handle variable. *)

From Stdlib Require Import ZArith List Lia.
From stdpp Require Import base option gmap fin_maps list.

Local Open Scope Z_scope.

(** ** Machine integers: [uint32_t] counters *)

Definition uint32_modulus : Z := 2 ^ 32.

(** [++c] and [--c] on a [uint32_t]: unsigned arithmetic wraps. *)
Definition uint32_incr (c : Z) : Z := (c + 1) mod uint32_modulus.
Definition uint32_decr (c : Z) : Z := (c - 1) mod uint32_modulus.

(** ** Pointers *)

(** What an object pointer can point to: an object in storage of its own
    (the argument of the raw-pointer constructor), the member [ptr_obj_] of
    the [NonDirectPtrCounter] at address [b], or that [NonDirectPtrCounter]
    itself, which is what [MakeShared] hands to the raw-pointer
    constructor. *)
Inductive object_ref : Type :=
  | HeapObject (a : nat)
  | InlineObject (b : nat)
  | CounterObject (b : nat).

(** [T*]: [None] is [nullptr]. *)
Definition object_ptr : Type := option object_ref.

(** [BasePtrCounter*]: [None] is [nullptr]. *)
Definition counter_ptr : Type := option nat.

Global Instance object_ref_eq_dec : EqDecision object_ref.
Proof. solve_decision. Defined.

(** ** Observable actions on memory *)

Inductive event : Type :=
  | Allocate (b : nat)        (* allocator_traits::allocate of the block at b *)
  | Destroy (b : nat)         (* the virtual destroy() of block b is entered *)
  | Delete (p : object_ref)   (* default_delete on p: destructor, operator delete *)
  | Deallocate (b : nat).     (* allocator deallocate(this, 1) of block b *)

Global Instance event_eq_dec : EqDecision event.
Proof. solve_decision. Defined.

(** Number of occurrences of [e] in a trace. *)
Fixpoint occurrences (e : event) (tr : list event) : nat :=
  match tr with
  | [] => 0%nat
  | x :: tr' => ((if decide (x = e) then 1 else 0) + occurrences e tr')%nat
  end.

(** ** Faults *)

Inductive fault : Type :=
  | NullDereference      (* a member is called through nullptr *)
  | DanglingCounter      (* a block is used after deallocate *)
  | NoSuchHandle         (* a handle variable is used outside its lifetime *)
  | HandleInUse          (* a handle is constructed over a live one *)
  | InvalidDelete.       (* delete of a pointer that no new-expression made *)

Inductive result (A : Type) : Type :=
  | Ok (a : A)
  | Fault (f : fault).
Arguments Ok {A} a.
Arguments Fault {A} f.

Section SmartPointers.

(** The managed type, the constructor arguments of [MakeShared], and the
    value that [T(args...)] constructs. *)
Context {T : Type} {Args : Type} (construct : Args → T).

(** ** Control blocks *)

(** The derived part of a block: [DirectPtrCounter<Y>] keeps a pointer
    [ptr_], [NonDirectPtrCounter] keeps the object [ptr_obj_] itself. *)
Inductive counter_variant : Type :=
  | DirectPtrCounter (ptr_ : object_ptr)
  | NonDirectPtrCounter (ptr_obj_ : T).

Record BasePtrCounter : Type := mkCounter {
  shared_count_ : Z;
  weak_count_ : Z;
  variant : counter_variant
}.

(** ** Handles *)

Record SharedPtr : Type := mkShared {
  ptr_counter_ : counter_ptr;
  ptr_ : object_ptr
}.

Record WeakPtr : Type := mkWeak {
  weak_ptr_counter_ : counter_ptr
}.

(** ** Program state *)

Record state : Type := mkState {
  heap : gmap nat BasePtrCounter;   (* the allocated control blocks *)
  brk : nat;                        (* next address the allocator hands out *)
  shared : gmap nat SharedPtr;      (* the live SharedPtr objects *)
  weak : gmap nat WeakPtr;          (* the live WeakPtr objects *)
  trace : list event                (* actions so far, oldest first *)
}.

Definition init : state :=
  {| heap := ∅; brk := 0%nat; shared := ∅; weak := ∅; trace := [] |}.

Definition set_heap (f : gmap nat BasePtrCounter → gmap nat BasePtrCounter)
    (st : state) : state :=
  {| heap := f (heap st); brk := brk st; shared := shared st;
     weak := weak st; trace := trace st |}.

Definition set_shared (f : gmap nat SharedPtr → gmap nat SharedPtr)
    (st : state) : state :=
  {| heap := heap st; brk := brk st; shared := f (shared st);
     weak := weak st; trace := trace st |}.

Definition set_weak (f : gmap nat WeakPtr → gmap nat WeakPtr)
    (st : state) : state :=
  {| heap := heap st; brk := brk st; shared := shared st;
     weak := f (weak st); trace := trace st |}.

Definition emit (e : event) (st : state) : state :=
  {| heap := heap st; brk := brk st; shared := shared st;
     weak := weak st; trace := trace st ++ [e] |}.

(** ** The monad of member functions *)

Definition M (A : Type) : Type := state → result (A * state).

Definition ret {A} (a : A) : M A := λ st, Ok (a, st).

Definition bind {A B} (m : M A) (k : A → M B) : M B :=
  λ st, match m st with
        | Ok (a, st') => k a st'
        | Fault f => Fault f
        end.

Definition raise {A} (f : fault) : M A := λ _, Fault f.

Declare Scope cpp_scope.
Delimit Scope cpp_scope with cpp.
Bind Scope cpp_scope with M.
Notation "x <- m ;; k" := (bind m (λ x, k))
  (at level 100, m at next level, k at level 200, right associativity) : cpp_scope.
Notation "m ;; k" := (bind m (λ _, k))
  (at level 100, k at level 200, right associativity) : cpp_scope.
Local Open Scope cpp_scope.

(** Final state of a computation. *)
Definition exec {A} (m : M A) (st : state) : result state :=
  match m st with
  | Ok (_, st') => Ok st'
  | Fault f => Fault f
  end.

(** *** Access to blocks through a [BasePtrCounter*] *)

(** [pc->...]: the pointer must not be null. *)
Definition deref (pc : counter_ptr) : M nat :=
  match pc with
  | Some b => ret b
  | None => raise NullDereference
  end.

Definition read_counter (b : nat) : M BasePtrCounter :=
  λ st, match heap st !! b with
        | Some c => Ok (c, st)
        | None => Fault DanglingCounter
        end.

Definition write_counter (b : nat) (c : BasePtrCounter) : M unit :=
  λ st, Ok (tt, set_heap (insert b c) st).

Definition log (e : event) : M unit := λ st, Ok (tt, emit e st).

(** *** [BasePtrCounter] (lines 7-24) *)

Definition increment_shared_count (b : nat) : M unit :=
  c <- read_counter b ;;
  write_counter b (mkCounter (uint32_incr (shared_count_ c)) (weak_count_ c) (variant c)).

Definition decrement_shared_count (b : nat) : M unit :=
  c <- read_counter b ;;
  write_counter b (mkCounter (uint32_decr (shared_count_ c)) (weak_count_ c) (variant c)).

Definition increment_weak_count (b : nat) : M unit :=
  c <- read_counter b ;;
  write_counter b (mkCounter (shared_count_ c) (uint32_incr (weak_count_ c)) (variant c)).

Definition decrement_weak_count (b : nat) : M unit :=
  c <- read_counter b ;;
  write_counter b (mkCounter (shared_count_ c) (uint32_decr (weak_count_ c)) (variant c)).

Definition get_shared_count (b : nat) : M Z :=
  c <- read_counter b ;; ret (shared_count_ c).

Definition get_weak_count (b : nat) : M Z :=
  c <- read_counter b ;; ret (weak_count_ c).

(** *** [DirectPtrCounter] and [NonDirectPtrCounter] (lines 26-74) *)

(** [get_ptr]: the stored pointer, or the address of the embedded object. *)
Definition get_ptr (b : nat) : M object_ptr :=
  c <- read_counter b ;;
  match variant c with
  | DirectPtrCounter p => ret p
  | NonDirectPtrCounter _ => ret (Some (InlineObject b))
  end.

(** [default_delete] applied to a pointer: nothing happens on [nullptr];
    otherwise the object is destroyed and its storage given to
    [operator delete], which the trace records.  [heap] follows the
    storage of a block from [allocate] to [deallocate] only: a block that
    is deleted as an object keeps its entry. *)
Definition default_delete (p : object_ptr) : M unit :=
  match p with
  | Some o => log (Delete o)
  | None => ret tt
  end.

(** [delete] on the address of a member of another object: the pointer
    points into the middle of an allocation. *)
Definition delete_member (p : object_ptr) : M unit :=
  raise InvalidDelete.

(** [destroy]: both variants hand a pointer to [default_delete].  The
    direct variant hands over its [ptr_] and then clears it.  The other
    variant hands over [get_ptr()], the address of its member [ptr_obj_],
    which no new-expression returned. *)
Definition destroy (b : nat) : M unit :=
  log (Destroy b) ;;
  c <- read_counter b ;;
  match variant c with
  | DirectPtrCounter p =>
      default_delete p ;;
      write_counter b (mkCounter (shared_count_ c) (weak_count_ c) (DirectPtrCounter None))
  | NonDirectPtrCounter _ =>
      p <- get_ptr b ;;
      delete_member p
  end.

(** [deallocate]: the block's storage goes back to the allocator. *)
Definition deallocate (b : nat) : M unit :=
  _ <- read_counter b ;;
  log (Deallocate b) ;;
  λ st, Ok (tt, set_heap (delete b) st).

(** [allocator_traits::allocate(a, 1)] followed by the construction of the
    block: a new address, never handed out before, with both counts [0]
    (the default member initialisers of lines 22-23). *)
Definition allocate_counter (v : counter_variant) : M nat :=
  λ st,
    let b := brk st in
    Ok (b, {| heap := <[b := mkCounter 0 0 v]> (heap st);
              brk := S b;
              shared := shared st;
              weak := weak st;
              trace := trace st ++ [Allocate b] |}).

(** *** Storage of the handle objects themselves *)

Definition read_shared (this : nat) : M SharedPtr :=
  λ st, match shared st !! this with
        | Some s => Ok (s, st)
        | None => Fault NoSuchHandle
        end.

(** Assignment to the members of a live [SharedPtr]. *)
Definition write_shared (this : nat) (s : SharedPtr) : M unit :=
  λ st, match shared st !! this with
        | Some _ => Ok (tt, set_shared (insert this s) st)
        | None => Fault NoSuchHandle
        end.

(** The member initialisers of a constructor: [this] starts its lifetime. *)
Definition init_shared (this : nat) (s : SharedPtr) : M unit :=
  λ st, match shared st !! this with
        | Some _ => Fault HandleInUse
        | None => Ok (tt, set_shared (insert this s) st)
        end.

(** The storage of [this] is given up once its destructor has run. *)
Definition end_shared (this : nat) : M unit :=
  λ st, match shared st !! this with
        | Some _ => Ok (tt, set_shared (delete this) st)
        | None => Fault NoSuchHandle
        end.

Definition read_weak (this : nat) : M WeakPtr :=
  λ st, match weak st !! this with
        | Some w => Ok (w, st)
        | None => Fault NoSuchHandle
        end.

Definition write_weak (this : nat) (w : WeakPtr) : M unit :=
  λ st, match weak st !! this with
        | Some _ => Ok (tt, set_weak (insert this w) st)
        | None => Fault NoSuchHandle
        end.

Definition init_weak (this : nat) (w : WeakPtr) : M unit :=
  λ st, match weak st !! this with
        | Some _ => Fault HandleInUse
        | None => Ok (tt, set_weak (insert this w) st)
        end.

Definition end_weak (this : nat) : M unit :=
  λ st, match weak st !! this with
        | Some _ => Ok (tt, set_weak (delete this) st)
        | None => Fault NoSuchHandle
        end.

(** An address for a local variable or a temporary: none of the live
    handles, and not [avoid] (the slot of the caller's result). *)
Definition fresh_shared (avoid : nat) : M nat :=
  λ st, Ok (fresh ({[avoid]} ∪ dom (shared st)), st).

(** *** [SharedPtr]: accessors (lines 94-108, 210-231) *)

Definition get_ptr_counter (this : nat) : M counter_ptr :=
  s <- read_shared this ;; ret (ptr_counter_ s).

Definition set_ptr_counter (this : nat) (pc : counter_ptr) : M unit :=
  s <- read_shared this ;; write_shared this (mkShared pc (ptr_ s)).

Definition set_ptr (this : nat) (p : object_ptr) : M unit :=
  s <- read_shared this ;; write_shared this (mkShared (ptr_counter_ s) p).

Definition reset_ptr (this : nat) : M unit := set_ptr this None.

Definition reset_ptr_counter (this : nat) : M unit := set_ptr_counter this None.

(** [get]: the cached pointer when it is set, else what the block says. *)
Definition SharedPtr_get (this : nat) : M object_ptr :=
  s <- read_shared this ;;
  match ptr_ s with
  | Some o => ret (Some o)
  | None =>
      match ptr_counter_ s with
      | Some b => get_ptr b
      | None => ret None
      end
  end.

Definition use_count (this : nat) : M Z :=
  s <- read_shared this ;;
  match ptr_counter_ s with
  | Some b => get_shared_count b
  | None => ret 0
  end.

(** [operator*] (lines 218-221): [*ptr_] where [ptr_] is set, else the
    object that [ptr_counter_->get_ptr()] points to.  Neither
    [ptr_counter_] nor the pointer it returns is tested. *)
Definition SharedPtr_operator_star (this : nat) : M object_ref :=
  s <- read_shared this ;;
  match ptr_ s with
  | Some o => ret o
  | None =>
      b <- deref (ptr_counter_ s) ;;
      p <- get_ptr b ;;
      match p with
      | Some o => ret o
      | None => raise NullDereference
      end
  end.

(** [operator->] (lines 223-226). *)
Definition SharedPtr_operator_arrow (this : nat) : M object_ptr :=
  SharedPtr_get this.

(** *** [SharedPtr]: the destructor (lines 238-249) *)

(** The body of [~SharedPtr].  It is also called as [this->~SharedPtr()]
    by the assignment operators, so it leaves the members of [this] where
    they are. *)
Definition SharedPtr_dtor (this : nat) : M unit :=
  s <- read_shared this ;;
  match ptr_counter_ s with
  | None => ret tt
  | Some b =>
      n <- get_shared_count b ;;
      if 0 <? n then
        decrement_shared_count b ;;
        n' <- get_shared_count b ;;
        if n' =? 0 then
          destroy b ;;
          w <- get_weak_count b ;;
          if w =? 0 then deallocate b else ret tt
        else ret tt
      else ret tt
  end.

(** A [SharedPtr] variable goes out of scope. *)
Definition SharedPtr_destruct (this : nat) : M unit :=
  SharedPtr_dtor this ;; end_shared this.

(** *** [SharedPtr]: constructors (lines 118-161) *)

Definition SharedPtr_default (this : nat) : M unit :=
  init_shared this (mkShared None None).

Definition SharedPtr_from_counter (this : nat) (ptr_counter : counter_ptr) : M unit :=
  p <- match ptr_counter with
       | Some b => get_ptr b
       | None => ret None
       end ;;
  init_shared this (mkShared ptr_counter p) ;;
  match ptr_counter with
  | Some b => increment_shared_count b
  | None => ret tt
  end.

(** [SharedPtr(Y* ptr)]: [ptr_] is initialised, a direct block is allocated
    and constructed, [ptr_counter_] is assigned and, not being null, takes
    the first strong reference. *)
Definition SharedPtr_from_raw (this : nat) (ptr : object_ptr) : M unit :=
  init_shared this (mkShared None ptr) ;;
  temp_ptr_counter <- allocate_counter (DirectPtrCounter ptr) ;;
  set_ptr_counter this (Some temp_ptr_counter) ;;
  pc <- get_ptr_counter this ;;
  match pc with
  | Some b => increment_shared_count b
  | None => ret tt
  end.

Definition SharedPtr_copy (this other : nat) : M unit :=
  pc <- get_ptr_counter other ;;
  p <- SharedPtr_get other ;;
  init_shared this (mkShared pc p) ;;
  match pc with
  | Some b => increment_shared_count b
  | None => ret tt
  end.

Definition SharedPtr_move (this other : nat) : M unit :=
  pc <- get_ptr_counter other ;;
  p <- SharedPtr_get other ;;
  init_shared this (mkShared pc p) ;;
  reset_ptr_counter other ;;
  reset_ptr other.

(** *** [SharedPtr]: assignment and [reset] (lines 163-177, 195-208, 233-236) *)

(** [this->~SharedPtr()] under [if (ptr_counter_)]. *)
Definition SharedPtr_release (this : nat) : M unit :=
  pc <- get_ptr_counter this ;;
  match pc with
  | Some _ => SharedPtr_dtor this
  | None => ret tt
  end.

Definition SharedPtr_assign (this other : nat) : M unit :=
  if decide (this = other) then ret tt
  else
    SharedPtr_release this ;;
    pc <- get_ptr_counter other ;;
    set_ptr_counter this pc ;;
    p <- SharedPtr_get other ;;
    set_ptr this p ;;
    pc' <- get_ptr_counter this ;;
    match pc' with
    | Some b => increment_shared_count b
    | None => ret tt
    end.

Definition SharedPtr_move_assign (this other : nat) : M unit :=
  if decide (this = other) then ret tt
  else
    SharedPtr_release this ;;
    pc <- get_ptr_counter other ;;
    set_ptr_counter this pc ;;
    p <- SharedPtr_get other ;;
    set_ptr this p ;;
    reset_ptr other ;;
    reset_ptr_counter other.

(** [reset]: [*this = SharedPtr<T>()].  The right-hand side is a temporary,
    so the move assignment is chosen; the temporary dies afterwards. *)
Definition SharedPtr_reset (this : nat) : M unit :=
  tmp <- fresh_shared this ;;
  SharedPtr_default tmp ;;
  SharedPtr_move_assign this tmp ;;
  SharedPtr_destruct tmp.

(** The converting assignment [operator=(const SharedPtr<Y>&)] (lines
    179-193).  [other] is a [SharedPtr<Y>]; it has the members of a
    [SharedPtr<T>] and is kept in the same store.  The block pointer of
    [other] goes through [dynamic_cast] to the [BasePtrCounter] of
    [SharedPtr<T>], which is the identity where the two classes are one
    and gives [nullptr] where they are unrelated: the cast is a
    parameter. *)
Definition SharedPtr_converting_assign
    (dynamic_cast : counter_ptr → counter_ptr) (this other : nat) : M unit :=
  if decide (this = other) then ret tt
  else
    SharedPtr_release this ;;
    p <- SharedPtr_get other ;;
    set_ptr this p ;;
    pc <- get_ptr_counter other ;;
    set_ptr_counter this (dynamic_cast pc) ;;
    pc' <- get_ptr_counter this ;;
    match pc' with
    | Some b => increment_shared_count b
    | None => ret tt
    end.

(** *** [WeakPtr] (lines 251-366) *)

(** Which function a copy or an assignment of a [WeakPtr] runs.  The class
    declares its copy and move operations as member templates only (lines
    256-273), and a template is never the copy constructor or the copy
    assignment operator of its class.  So the compiler declares the
    member-wise copy constructor and the member-wise copy assignment, and
    overload resolution prefers them, as non-templates, for a source of
    type [WeakPtr<T>]:
    - [WeakPtr<T> w(src)] and [w = src] with [src] a [WeakPtr<T>] copy the
      member [ptr_counter_] and do nothing else;
    - the constructor template of lines 287-295 runs for a source
      [WeakPtr<Y>] of another type [Y];
    - the constructor template of lines 297-303 runs for an rvalue source;
    - the two assignment templates (lines 326-353) call
      [get_ptr_counter()] and [reset_ptr_counter()] on a [WeakPtr], which
      has no such members: no instantiation of them compiles, so they are
      no part of any program and have no definition here.
      [w = std::move(src)] selects the second of them and is
      ill-formed. *)

(** The member [ptr_counter_] of a [WeakPtr]. *)
Definition weak_get_ptr_counter (this : nat) : M counter_ptr :=
  w <- read_weak this ;; ret (weak_ptr_counter_ w).

Definition WeakPtr_default (this : nat) : M unit :=
  init_weak this (mkWeak None).

(** The implicitly-declared copy constructor [WeakPtr(const WeakPtr&)]:
    member-wise, so [ptr_counter_] is copied and no count is touched. *)
Definition WeakPtr_implicit_copy (this other : nat) : M unit :=
  pc <- weak_get_ptr_counter other ;;
  init_weak this (mkWeak pc).

(** [WeakPtr(const WeakPtr<Y>& other)] (lines 287-295), for a source of
    another type [Y].  A [WeakPtr<Y>] has the one member of a [WeakPtr<T>]
    and is kept in the same store. *)
Definition WeakPtr_converting_copy (this other : nat) : M unit :=
  pc <- weak_get_ptr_counter other ;;
  init_weak this (mkWeak pc) ;;
  match pc with
  | Some b => increment_weak_count b
  | None => ret tt
  end.

Definition WeakPtr_move (this other : nat) : M unit :=
  pc <- weak_get_ptr_counter other ;;
  init_weak this (mkWeak pc) ;;
  write_weak other (mkWeak None).

(** [WeakPtr(const SharedPtr<Y>&)]: the increment goes through
    [ptr_counter_] without a test. *)
Definition WeakPtr_from_shared (this other : nat) : M unit :=
  pc <- get_ptr_counter other ;;
  init_weak this (mkWeak pc) ;;
  b <- deref pc ;;
  increment_weak_count b.

(** [!ptr_counter_ || !(ptr_counter_->get_shared_count())] *)
Definition expired (this : nat) : M bool :=
  pc <- weak_get_ptr_counter this ;;
  match pc with
  | None => ret true
  | Some b => n <- get_shared_count b ;; ret (n =? 0)
  end.

(** What the conditional expression of [lock] evaluates: a
    [std::runtime_error] object in one branch, the block pointer in the
    other.  The declared return type is [BasePtrCounter*]. *)
Inductive lock_value : Type :=
  | RuntimeError
  | CounterPointer (pc : counter_ptr).

Definition lock (this : nat) : M lock_value :=
  e <- expired this ;;
  if e then ret RuntimeError
  else pc <- weak_get_ptr_counter this ;; ret (CounterPointer pc).

Definition WeakPtr_dtor (this : nat) : M unit :=
  pc <- weak_get_ptr_counter this ;;
  match pc with
  | None => ret tt
  | Some b =>
      n <- get_weak_count b ;;
      (if 0 <? n then decrement_weak_count b else ret tt) ;;
      n' <- get_weak_count b ;;
      if n' =? 0 then
        k <- get_shared_count b ;;
        if k =? 0 then deallocate b else ret tt
      else ret tt
  end.

Definition WeakPtr_destruct (this : nat) : M unit :=
  WeakPtr_dtor this ;; end_weak this.

(** The implicitly-declared copy assignment [operator=(const WeakPtr&)]:
    member-wise, with no test for self-assignment, no release of the block
    that [this] referred to and no count touched. *)
Definition WeakPtr_implicit_assign (this other : nat) : M unit :=
  pc <- weak_get_ptr_counter other ;;
  write_weak this (mkWeak pc).

(** *** [MakeShared] (lines 368-382) *)

(** A [NonDirectPtrCounter] is allocated and constructed around
    [T(args...)].  The local [ptr] is then initialised from [temp_ptr],
    whose type is [NonDirectPtrCounter*]: the constructor template
    [SharedPtr(Y* ptr)] is an exact match with [Y = NonDirectPtrCounter],
    while [SharedPtr(BasePtrCounter* ptr_counter)] needs a conversion from
    derived to base, so overload resolution selects the template.  It
    treats the block as the managed object: it allocates a
    [DirectPtrCounter<NonDirectPtrCounter>] that points to it and keeps the
    address of the block as [ptr_].  [ptr] is moved into the result and
    destroyed. *)
Definition MakeShared (result_slot : nat) (args : Args) : M unit :=
  temp_ptr <- allocate_counter (NonDirectPtrCounter (construct args)) ;;
  ptr <- fresh_shared result_slot ;;
  SharedPtr_from_raw ptr (Some (CounterObject temp_ptr)) ;;
  SharedPtr_move result_slot ptr ;;
  SharedPtr_destruct ptr.

(** The [T] an object pointer points to, for the objects the model holds:
    those embedded in a block.  The address of a block is not the address
    of a [T], and objects the caller allocated are known by address
    only. *)
Definition object_at (st : state) (p : object_ptr) : option T :=
  match p with
  | Some (InlineObject b) =>
      match heap st !! b with
      | Some c =>
          match variant c with
          | NonDirectPtrCounter v => Some v
          | DirectPtrCounter _ => None
          end
      | None => None
      end
  | Some (CounterObject _) | Some (HeapObject _) | None => None
  end.

(** ** Programs: sequences of handle operations *)

Inductive op : Type :=
  | SharedDefault (h : nat)               (* SharedPtr<T> h;                 *)
  | SharedFromRaw (h : nat) (p : object_ptr)  (* SharedPtr<T> h(p);          *)
  | SharedCopy (h src : nat)              (* SharedPtr<T> h(src);            *)
  | SharedMove (h src : nat)              (* SharedPtr<T> h(std::move(src)); *)
  | SharedAssign (h src : nat)            (* h = src;                        *)
  | SharedMoveAssign (h src : nat)        (* h = std::move(src);             *)
  | SharedReset (h : nat)                 (* h.reset();                      *)
  | SharedDestruct (h : nat)              (* h goes out of scope             *)
  | SharedMake (h : nat) (args : Args)    (* SharedPtr<T> h = MakeShared<T>(args); *)
  | WeakDefault (w : nat)                 (* WeakPtr<T> w;                   *)
  | WeakCopy (w src : nat)                (* WeakPtr<T> w(src);              *)
  | WeakConvertingCopy (w src : nat)      (* WeakPtr<T> w(src), src a WeakPtr<Y> *)
  | WeakMove (w src : nat)                (* WeakPtr<T> w(std::move(src));   *)
  | WeakFromShared (w src : nat)          (* WeakPtr<T> w(src), src shared   *)
  | WeakAssign (w src : nat)              (* w = src;                        *)
  | WeakDestruct (w : nat).               (* w goes out of scope             *)

Definition step (o : op) : M unit :=
  match o with
  | SharedDefault h => SharedPtr_default h
  | SharedFromRaw h p => SharedPtr_from_raw h p
  | SharedCopy h src => SharedPtr_copy h src
  | SharedMove h src => SharedPtr_move h src
  | SharedAssign h src => SharedPtr_assign h src
  | SharedMoveAssign h src => SharedPtr_move_assign h src
  | SharedReset h => SharedPtr_reset h
  | SharedDestruct h => SharedPtr_destruct h
  | SharedMake h args => MakeShared h args
  | WeakDefault w => WeakPtr_default w
  | WeakCopy w src => WeakPtr_implicit_copy w src
  | WeakConvertingCopy w src => WeakPtr_converting_copy w src
  | WeakMove w src => WeakPtr_move w src
  | WeakFromShared w src => WeakPtr_from_shared w src
  | WeakAssign w src => WeakPtr_implicit_assign w src
  | WeakDestruct w => WeakPtr_destruct w
  end.

Fixpoint run (ops : list op) (st : state) : result state :=
  match ops with
  | [] => Ok st
  | o :: ops' =>
      match exec (step o) st with
      | Ok st' => run ops' st'
      | Fault f => Fault f
      end
  end.

(** All the states a program passes through, one per completed operation. *)
Fixpoint trajectory (ops : list op) (st : state) : list state :=
  match ops with
  | [] => []
  | o :: ops' =>
      match exec (step o) st with
      | Ok st' => st' :: trajectory ops' st'
      | Fault _ => []
      end
  end.

(** ** Live handles of a block *)

(** Number of entries of a handle store whose block pointer is [b]. *)
Definition refs {H : Type} (f : H → counter_ptr) (m : gmap nat H) (b : nat) : nat :=
  size (filter (λ kv : nat * H, f kv.2 = Some b) m).

Definition contributes {H : Type} (f : H → counter_ptr) (x : H) (b : nat) : nat :=
  if decide (f x = Some b) then 1%nat else 0%nat.

Definition strong_refs (st : state) (b : nat) : nat :=
  refs ptr_counter_ (shared st) b.

Definition weak_refs (st : state) (b : nat) : nat :=
  refs weak_ptr_counter_ (weak st) b.

(** No block has as many handles as a [uint32_t] has values. *)
Definition strong_capacity (st : state) : Prop :=
  ∀ b, Z.of_nat (strong_refs st b) < uint32_modulus.

Definition weak_capacity (st : state) : Prop :=
  ∀ b, Z.of_nat (weak_refs st b) < uint32_modulus.

Definition capacity (st : state) : Prop :=
  strong_capacity st ∧ weak_capacity st.

(** ** Invariants of the counting protocol *)

(** Whether the block at [b] is in memory as a [NonDirectPtrCounter], the
    combined block that [MakeShared] allocates. *)
Definition non_direct (v : counter_variant) : bool :=
  match v with
  | NonDirectPtrCounter _ => true
  | DirectPtrCounter _ => false
  end.

Definition combined_at (m : gmap nat BasePtrCounter) (b : nat) : bool :=
  match m !! b with
  | Some c => non_direct (variant c)
  | None => false
  end.

Definition is_combined (st : state) (b : nat) : bool :=
  combined_at (heap st) b.

(** The strong side: counts, liveness of referenced blocks, the allocator's
    frontier, and the history of [Allocate] and [Destroy].  No handle
    refers to a combined block. *)
Record strong_inv (st : state) : Prop := {
  si_count : ∀ b c, heap st !! b = Some c →
    shared_count_ c = Z.of_nat (strong_refs st b);
  si_live : ∀ h s b, shared st !! h = Some s → ptr_counter_ s = Some b →
    is_Some (heap st !! b);
  si_direct : ∀ h s b, shared st !! h = Some s → ptr_counter_ s = Some b →
    is_combined st b = false;
  si_weak_direct : ∀ h w b, weak st !! h = Some w → weak_ptr_counter_ w = Some b →
    is_combined st b = false ∧ (b < brk st)%nat;
  si_brk : ∀ b, is_Some (heap st !! b) → (b < brk st)%nat;
  si_allocate : ∀ b, occurrences (Allocate b) (trace st) =
    if decide (b < brk st)%nat then 1%nat else 0%nat;
  si_destroy : ∀ b, occurrences (Destroy b) (trace st) =
    if decide ((b < brk st)%nat ∧ strong_refs st b = 0%nat ∧ is_combined st b = false)
    then 1%nat else 0%nat
}.

(** The weak side and the storage of the blocks. *)
Record weak_inv (st : state) : Prop := {
  wi_count : ∀ b c, heap st !! b = Some c →
    weak_count_ c = Z.of_nat (weak_refs st b);
  wi_live : ∀ h w b, weak st !! h = Some w → weak_ptr_counter_ w = Some b →
    is_Some (heap st !! b);
  wi_owned : ∀ b, is_Some (heap st !! b) → is_combined st b = false →
    (0 < strong_refs st b ∨ 0 < weak_refs st b)%nat;
  wi_deallocate : ∀ b, occurrences (Deallocate b) (trace st) =
    if decide ((b < brk st)%nat ∧ heap st !! b = None) then 1%nat else 0%nat
}.

(** A handle without a block has no cached pointer either. *)
Definition null_consistent (st : state) : Prop :=
  ∀ h s, shared st !! h = Some s → ptr_counter_ s = None → ptr_ s = None.

(** The operations that keep the weak count in step with the handles: all
    but the member-wise copy construction and copy assignment of a
    [WeakPtr]. *)
Definition protocol_op (o : op) : Prop :=
  match o with
  | WeakCopy _ _ | WeakAssign _ _ => False
  | _ => True
  end.

End SmartPointers.

Arguments counter_variant T : clear implicits.
Arguments BasePtrCounter T : clear implicits.
Arguments state T : clear implicits.
Arguments M T A : clear implicits.
Arguments op Args : clear implicits.

(** ** Auxiliary definitions for the proofs *)

(** What [destroy] on a direct block with pointer [p] reports. *)
Definition destroy_events (b : nat) (p : object_ptr) : list event :=
  Destroy b ::
  match p with
  | Some o => [Delete o]
  | None => []
  end.

(** The state after [~SharedPtr] of a handle of the direct block [b],
    whose contents were [c], with pointer [p] and a strong count between
    [1] and [2^32 - 1]. *)
Definition release_strong {T} (b : nat) (c : BasePtrCounter T) (p : object_ptr)
    (st : state T) : state T :=
  if decide (shared_count_ c = 1) then
    if decide (weak_count_ c = 0) then
      {| heap := delete b (heap st); brk := brk st; shared := shared st;
         weak := weak st;
         trace := trace st ++ destroy_events b p ++ [Deallocate b] |}
    else
      {| heap := <[b := mkCounter 0 (weak_count_ c) (DirectPtrCounter None)]> (heap st);
         brk := brk st; shared := shared st; weak := weak st;
         trace := trace st ++ destroy_events b p |}
  else
    {| heap := <[b := mkCounter (shared_count_ c - 1) (weak_count_ c) (variant c)]> (heap st);
       brk := brk st; shared := shared st; weak := weak st; trace := trace st |}.

Definition contributes_opt {H : Type} (f : H → counter_ptr) (o : option H) (b : nat) : nat :=
  match o with
  | Some x => contributes f x b
  | None => 0%nat
  end.

(** Assignment and [reset] release the handle and then build it anew: the
    other operations are the basic ones. *)
Definition basic_op {Args : Type} (o : op Args) : Prop :=
  match o with
  | SharedAssign _ _ | SharedMoveAssign _ _ | SharedReset _ => False
  | _ => True
  end.

Definition desugar {Args : Type} (o : op Args) : list (op Args) :=
  match o with
  | SharedAssign h src =>
      if decide (h = src) then [] else [SharedDestruct h; SharedCopy h src]
  | SharedMoveAssign h src =>
      if decide (h = src) then [] else [SharedDestruct h; SharedMove h src]
  | SharedReset h => [SharedDestruct h; SharedDefault h]
  | _ => [o]
  end.

(** The operations that only construct a handle. *)
Definition constructing {Args : Type} (o : op Args) : Prop :=
  match o with
  | SharedDefault _ | SharedCopy _ _ | SharedMove _ _ => True
  | _ => False
  end.

(** How an operation may change the number of handles of a block. *)
Record refs_step {T} (st st' : state T) (b : nat) : Prop := {
  rs_strong_drop : (strong_refs st b ≤ strong_refs st' b + 1)%nat;
  rs_total_drop : (strong_refs st b + weak_refs st b
                   ≤ strong_refs st' b + weak_refs st' b + 1)%nat;
  rs_strong_gone : (b < brk st)%nat → strong_refs st b = 0%nat →
                   strong_refs st' b = 0%nat;
  rs_total_gone : (b < brk st)%nat →
                  (strong_refs st b + weak_refs st b = 0)%nat →
                  (strong_refs st' b + weak_refs st' b = 0)%nat;
  rs_brk : (brk st ≤ brk st')%nat
}.


(** Stores small enough for [capacity], checked by computation. *)
Definition small_stores {T} (st : state T) : bool :=
  (Z.of_nat (size (shared st)) <? uint32_modulus) &&
  (Z.of_nat (size (weak st)) <? uint32_modulus).

(** The final state of a program that runs to completion. *)
Definition final_state (ops : list (op Z)) : state Z :=
  match run id ops init with
  | Ok st => st
  | Fault _ => init
  end.

Definition some_object : object_ptr := Some (HeapObject 100).

(** The scenario of a shared object observed by a weak handle. *)
Definition sharing : list (op Z) :=
  [ SharedFromRaw 0%nat some_object;
    SharedCopy 1%nat 0%nat;
    SharedMove 2%nat 1%nat;
    WeakFromShared 0%nat 0%nat ].

Definition expiring : list (op Z) :=
  sharing ++ [ SharedDestruct 0%nat; SharedReset 2%nat; SharedDestruct 1%nat ].

Definition releasing : list (op Z) :=
  expiring ++ [ WeakDestruct 0%nat; SharedDestruct 2%nat ].

Definition two_observed_blocks : list (op Z) :=
  [ SharedFromRaw 0%nat (Some (HeapObject 100));
    SharedFromRaw 1%nat (Some (HeapObject 200));
    WeakFromShared 0%nat 0%nat;
    WeakFromShared 1%nat 1%nat ].

Definition first_object : object_ptr := Some (HeapObject 0).

Definition first_handle : SharedPtr := mkShared (Some 0%nat) first_object.

(** One handle made from a raw pointer, then [n] copies of it. *)
Definition many_copies (n : nat) : list (op Z) :=
  SharedFromRaw 0%nat first_object ::
  map (λ i, SharedCopy (S i) 0%nat) (seq 0 n).

(** The handles [0 .. n-1] go out of scope. *)
Definition destroy_all (n : nat) : list (op Z) :=
  map SharedDestruct (seq 0 n).

(** The last value of a [uint32_t]. *)
Definition uint32_last : nat := Z.to_nat (uint32_modulus - 1).

(** The operations on a [WeakPtr]. *)
Definition weak_op {Args : Type} (o : op Args) : Prop :=
  match o with
  | WeakDefault _ | WeakCopy _ _ | WeakConvertingCopy _ _ | WeakMove _ _
  | WeakFromShared _ _ | WeakAssign _ _ | WeakDestruct _ => True
  | _ => False
  end.

(** No [Deallocate b] occurs in the trace unless a [Destroy b] occurs
    before it; [destroyed] says whether one has occurred already. *)
Fixpoint destroy_first (b : nat) (destroyed : bool) (tr : list event) : bool :=
  match tr with
  | [] => true
  | e :: tr' =>
      if decide (e = Deallocate b) then destroyed && destroy_first b destroyed tr'
      else destroy_first b (destroyed || bool_decide (e = Destroy b)) tr'
  end.

(** What [get_ptr] returns on the block at [b] with contents [c]. *)
Definition block_ptr {T} (b : nat) (c : BasePtrCounter T) : object_ptr :=
  match variant c with
  | DirectPtrCounter p => p
  | NonDirectPtrCounter _ => Some (InlineObject b)
  end.

(** The pointer a handle caches is the one its block holds. *)
Definition ptr_consistent {T} (st : state T) : Prop :=
  ∀ h s b c, shared st !! h = Some s → ptr_counter_ s = Some b →
    heap st !! b = Some c → ptr_ s = block_ptr b c.

(** A handle made from a raw pointer and observed by a weak handle. *)
Definition observed : list (op Z) :=
  [ SharedFromRaw 0%nat some_object; WeakFromShared 0%nat 0%nat ].

(** The weak handle of [observed] is copied and the original destroyed:
    the copy is left with a block whose weak count is 0. *)
Definition uncounted : list (op Z) :=
  observed ++ [ WeakCopy 1%nat 0%nat; WeakDestruct 0%nat ].

(** A handle that gave up its block by [reset_ptr_counter()] and kept its
    pointer. *)
Definition blockless : state Z :=
  match exec (reset_ptr_counter 0) (final_state [SharedFromRaw 0%nat some_object]) with
  | Ok st => st
  | Fault _ => init
  end.

(** ** Symbolic execution of member functions *)

(** Unfold the member functions down to the state they build. *)
Ltac cpp_unfold :=
  repeat (progress unfold
    SharedPtr_destruct, SharedPtr_dtor, SharedPtr_default, SharedPtr_from_counter,
    SharedPtr_from_raw, SharedPtr_copy, SharedPtr_move, SharedPtr_release,
    SharedPtr_assign, SharedPtr_move_assign, SharedPtr_reset, SharedPtr_get,
    use_count, get_ptr_counter, set_ptr_counter, set_ptr, reset_ptr,
    reset_ptr_counter, weak_get_ptr_counter,
    WeakPtr_default, WeakPtr_implicit_copy, WeakPtr_converting_copy,
    WeakPtr_move, WeakPtr_from_shared, expired,
    lock, WeakPtr_dtor, WeakPtr_destruct, WeakPtr_implicit_assign,
    MakeShared, increment_shared_count, decrement_shared_count,
    increment_weak_count, decrement_weak_count, get_shared_count,
    get_weak_count, get_ptr, default_delete, delete_member, destroy, deallocate,
    allocate_counter, read_shared, write_shared, init_shared, end_shared,
    read_weak, write_weak, init_weak, end_weak, fresh_shared, deref,
    read_counter, write_counter, log, exec, bind, ret, raise,
    set_heap, set_shared, set_weak, emit in *).

(** Use what is known of the stores and of the handles read from them. *)
Ltac cpp_lookup :=
  match goal with
  | H : ?m !! ?k = _ |- context [?m !! ?k] => rewrite H
  | H : ptr_counter_ ?s = _ |- context [ptr_counter_ ?s] => rewrite H
  | H : ptr_ ?s = _ |- context [ptr_ ?s] => rewrite H
  | H : weak_ptr_counter_ ?s = _ |- context [weak_ptr_counter_ ?s] => rewrite H
  | H : variant ?s = _ |- context [variant ?s] => rewrite H
  | |- context [<[?k := _]> _ !! ?k] => rewrite lookup_insert_eq
  | |- context [delete ?k _ !! ?k] => rewrite lookup_delete_eq
  | |- context [<[?k := _]> _ !! ?j] => rewrite (lookup_insert_ne _ k j) by congruence
  | |- context [delete ?k _ !! ?j] => rewrite (lookup_delete_ne _ k j) by congruence
  end.

Ltac cpp_exec := cpp_unfold; repeat (first [progress simpl | cpp_lookup]).

(** Split on the next test the code makes. *)
Ltac cpp_case :=
  match goal with
  | |- context [if decide (?a = ?b) then _ else _] => destruct (decide (a = b)); [subst|]
  | |- context [match ?m !! ?k with _ => _ end] => destruct (m !! k) eqn:?
  | |- context [if Z.ltb ?a ?b then _ else _] => destruct (Z.ltb_spec a b)
  | |- context [if Z.eqb ?a ?b then _ else _] => destruct (Z.eqb_spec a b)
  | |- context [match ptr_counter_ ?s with _ => _ end] => destruct (ptr_counter_ s) eqn:?
  | |- context [match ptr_ ?s with _ => _ end] => destruct (ptr_ s) eqn:?
  | |- context [match weak_ptr_counter_ ?s with _ => _ end] => destruct (weak_ptr_counter_ s) eqn:?
  | |- context [match variant ?s with _ => _ end] => destruct (variant s) eqn:?
  | |- context [match ?x with _ => _ end] => is_var x; destruct x
  end.

Ltac cpp_cases := cpp_exec; repeat (cpp_case; cpp_exec).

(** ** Arithmetic, traces and the destructor *)

Section Basics.
Context {T : Type}.
Implicit Types (st : state T) (b h this other : nat) (c : BasePtrCounter T).

Lemma uint32_incr_small n : 0 ≤ n → n + 1 < uint32_modulus → uint32_incr n = n + 1.
Proof. intros. unfold uint32_incr. apply Z.mod_small. lia. Qed.

Lemma uint32_decr_small n : 1 ≤ n < uint32_modulus → uint32_decr n = n - 1.
Proof. intros. unfold uint32_decr. apply Z.mod_small. lia. Qed.

Lemma occurrences_app e tr1 tr2 :
  occurrences e (tr1 ++ tr2) = (occurrences e tr1 + occurrences e tr2)%nat.
Proof. induction tr1 as [|x tr1 IH]; simpl; [done|]. rewrite IH. lia. Qed.

Lemma destroy_spec st b c p :
  heap st !! b = Some c → variant c = DirectPtrCounter p →
  destroy b st = Ok (tt,
    {| heap := <[b := mkCounter (shared_count_ c) (weak_count_ c) (DirectPtrCounter None)]> (heap st);
       brk := brk st; shared := shared st; weak := weak st;
       trace := trace st ++ destroy_events b p |}).
Proof.
  intros Hb Hv. cpp_exec. destruct p as [o|]; cpp_exec;
    rewrite <-?app_assoc; simpl; done.
Qed.

Lemma SharedPtr_dtor_spec st this s b c p :
  shared st !! this = Some s → ptr_counter_ s = Some b →
  heap st !! b = Some c → variant c = DirectPtrCounter p →
  1 ≤ shared_count_ c < uint32_modulus →
  SharedPtr_dtor this st = Ok (tt, release_strong b c p st).
Proof.
  intros Hs Hpc Hb Hv Hn. unfold SharedPtr_dtor, bind at 1, read_shared.
  rewrite Hs, Hpc. unfold release_strong.
  assert (Hd := uint32_decr_small _ Hn).
  destruct c as [sc wc v]; simpl in *. subst v.
  cpp_exec. destruct (Z.ltb_spec 0 sc); [|lia]. cpp_exec. rewrite Hd.
  destruct (Z.eqb_spec (sc - 1) 0) as [E|E].
  - rewrite decide_True by lia. rewrite E.
    destruct p as [o|]; cpp_exec;
      (destruct (Z.eqb_spec wc 0) as [E'|E'];
       [rewrite decide_True by done|rewrite decide_False by done]); cpp_exec;
      rewrite ?insert_insert_eq, ?delete_insert_eq, <-?app_assoc; simpl; done.
  - rewrite decide_False by lia. done.
Qed.

Lemma combined_at_insert (m : gmap nat (BasePtrCounter T)) k c b :
  combined_at (<[k:=c]> m) b =
  if decide (k = b) then non_direct (variant c) else combined_at m b.
Proof. unfold combined_at. rewrite lookup_insert. by case_decide. Qed.

Lemma combined_at_delete (m : gmap nat (BasePtrCounter T)) k b :
  combined_at (delete k m) b = if decide (k = b) then false else combined_at m b.
Proof. unfold combined_at. rewrite lookup_delete. by case_decide. Qed.

Lemma combined_at_lookup (m : gmap nat (BasePtrCounter T)) b c :
  m !! b = Some c → combined_at m b = non_direct (variant c).
Proof. unfold combined_at. by intros ->. Qed.

Lemma combined_at_None (m : gmap nat (BasePtrCounter T)) b :
  m !! b = None → combined_at m b = false.
Proof. unfold combined_at. by intros ->. Qed.

(** The address chosen for a temporary is that of no live handle. *)
Lemma fresh_shared_spec st avoid :
  let tmp := fresh ({[avoid]} ∪ dom (shared st)) in
  tmp ≠ avoid ∧ shared st !! tmp = None.
Proof.
  intros tmp. pose proof (is_fresh ({[avoid]} ∪ dom (shared st))) as Hf.
  fold tmp in Hf. split.
  - intros ->. apply Hf. set_solver.
  - apply not_elem_of_dom. set_solver.
Qed.

End Basics.

(** ** Counting the handles of a block *)

Section Counting.
Context {H : Type} (f : H → counter_ptr).
Implicit Types (m : gmap nat H).

Lemma refs_empty b : refs f ∅ b = 0%nat.
Proof. unfold refs. by rewrite map_filter_empty, map_size_empty. Qed.

Lemma refs_insert_None m h x b :
  m !! h = None → refs f (<[h:=x]> m) b = (refs f m b + contributes f x b)%nat.
Proof.
  intros Hm. unfold refs, contributes. rewrite map_filter_insert. simpl.
  destruct (decide (f x = Some b)).
  - rewrite map_size_insert_None; [lia|].
    apply map_lookup_filter_None. by left.
  - rewrite delete_id by done. lia.
Qed.

Lemma refs_delete_total m h b :
  (refs f (delete h m) b + contributes_opt f (m !! h) b = refs f m b)%nat.
Proof.
  destruct (m !! h) as [x|] eqn:Hm; simpl.
  - rewrite <-(insert_id m h x) at 2 by done.
    rewrite <-insert_delete_eq. symmetry. apply refs_insert_None, lookup_delete_eq.
  - rewrite delete_id by done. lia.
Qed.

Lemma refs_insert_total m h x b :
  (refs f (<[h:=x]> m) b + contributes_opt f (m !! h) b
   = refs f m b + contributes f x b)%nat.
Proof.
  rewrite <-insert_delete_eq.
  rewrite refs_insert_None by apply lookup_delete_eq.
  pose proof (refs_delete_total m h b). lia.
Qed.

Lemma refs_zero m b :
  refs f m b = 0%nat ↔ ∀ h x, m !! h = Some x → f x ≠ Some b.
Proof.
  unfold refs. rewrite map_size_empty_iff, map_empty_filter.
  unfold map_Forall. simpl. done.
Qed.

Lemma refs_pos m h x b : m !! h = Some x → f x = Some b → (0 < refs f m b)%nat.
Proof.
  intros Hm Hx. destruct (refs f m b) eqn:E; [|lia].
  rewrite refs_zero in E. by destruct (E h x Hm).
Qed.

Lemma refs_pos_inv m b :
  (0 < refs f m b)%nat → ∃ h x, m !! h = Some x ∧ f x = Some b.
Proof.
  unfold refs. intros Hpos.
  destruct (map_choose (filter (λ kv : nat * H, f kv.2 = Some b) m)) as (h & x & Hhx).
  { intros E. rewrite E, map_size_empty in Hpos. lia. }
  apply map_lookup_filter_Some in Hhx as [? ?]. eauto.
Qed.

Lemma refs_two m h1 h2 x1 x2 b :
  m !! h1 = Some x1 → m !! h2 = Some x2 → h1 ≠ h2 →
  f x1 = Some b → f x2 = Some b → (2 ≤ refs f m b)%nat.
Proof.
  intros H1 H2 Hne F1 F2.
  pose proof (refs_delete_total m h1 b) as Hd. rewrite H1 in Hd. simpl in Hd.
  assert (delete h1 m !! h2 = Some x2) as H2' by by rewrite lookup_delete_ne.
  pose proof (refs_pos _ _ _ _ H2' F2).
  unfold contributes in Hd. rewrite decide_True in Hd by done. lia.
Qed.

Lemma refs_le_size m b : (refs f m b ≤ size m)%nat.
Proof. apply map_subseteq_size, map_filter_subseteq. Qed.

Lemma refs_delete_le m h b :
  (refs f (delete h m) b ≤ refs f m b)%nat.
Proof. pose proof (refs_delete_total m h b). lia. Qed.

End Counting.

(** ** Tactics for the invariants *)

(** Lookups in updated stores, in the goal and in the hypotheses. *)
Ltac map_lookups :=
  repeat (rewrite lookup_insert || rewrite lookup_delete).

Ltac hyp_lookups :=
  repeat match goal with
  | H : context [<[_ := _]> _ !! _] |- _ => rewrite lookup_insert in H
  | H : context [delete _ _ !! _] |- _ => rewrite lookup_delete in H
  | H : ?m !! ?k = _, H' : context [?m !! ?k] |- _ =>
      lazymatch type of H' with
      | m !! k = _ => fail
      | _ => rewrite H in H'
      end
  end.

Ltac unfold_contrib :=
  unfold contributes_opt, contributes in *; simpl in *;
  repeat match goal with
  | H : ?f ?s = _, H' : context [decide (?f ?s = _)] |- _ => rewrite H in H'
  end.

Ltac split_decides :=
  repeat match goal with
  | H : context [decide ?P] |- _ => destruct (decide P); simplify_eq
  | |- context [decide ?P] => destruct (decide P); simplify_eq
  end.

Ltac occ_norm :=
  rewrite ?occurrences_app; simpl.

(** Two runs that end in the same state, up to the order of updates. *)
Ltac state_eq :=
  lazymatch goal with
  | |- Ok _ = Ok _ =>
      f_equal; f_equal; try done;
      apply map_eq; intros ?; map_lookups; repeat case_decide;
      simplify_eq; try done; try congruence
  | |- _ => try done
  end.

(** Express the handle counts of an updated store by those of the old one. *)
Ltac refs_norm :=
  repeat match goal with
  | |- context [refs ?f (<[?h:=?x]> ?m) ?b] =>
      let Hr := fresh "Hr" in
      pose proof (refs_insert_total f m h x b) as Hr;
      generalize dependent (refs f (<[h:=x]> m) b); intros
  | |- context [refs ?f (delete ?h ?m) ?b] =>
      let Hr := fresh "Hr" in
      pose proof (refs_delete_total f m h b) as Hr;
      generalize dependent (refs f (delete h m) b); intros
  | H : context [refs ?f (<[?h:=?x]> ?m) ?b] |- _ =>
      let Hr := fresh "Hr" in
      pose proof (refs_insert_total f m h x b) as Hr;
      generalize dependent (refs f (<[h:=x]> m) b); intros
  | H : context [refs ?f (delete ?h ?m) ?b] |- _ =>
      let Hr := fresh "Hr" in
      pose proof (refs_delete_total f m h b) as Hr;
      generalize dependent (refs f (delete h m) b); intros
  end.

(** Which blocks of an updated memory are combined ones, by those of the
    old one. *)
Ltac combined_norm :=
  unfold is_combined in *; simpl in *;
  repeat match goal with
  | |- context [combined_at (<[_:=_]> _) _] => rewrite combined_at_insert
  | |- context [combined_at (delete _ _) _] => rewrite combined_at_delete
  | H : context [combined_at (<[_:=_]> _) _] |- _ => rewrite combined_at_insert in H
  | H : context [combined_at (delete _ _) _] |- _ => rewrite combined_at_delete in H
  end;
  simpl in *.

(** Use the blocks in sight, then split on what is left to know. *)
Ltac combined_cases :=
  repeat match goal with
  | Hb : ?m !! ?b = Some ?c, H : context [combined_at ?m ?b] |- _ =>
      rewrite (combined_at_lookup m b c Hb) in H
  | Hb : ?m !! ?b = Some ?c |- context [combined_at ?m ?b] =>
      rewrite (combined_at_lookup m b c Hb)
  | Hb : ?m !! ?b = None, H : context [combined_at ?m ?b] |- _ =>
      rewrite (combined_at_None m b Hb) in H
  | Hb : ?m !! ?b = None |- context [combined_at ?m ?b] =>
      rewrite (combined_at_None m b Hb)
  | Hv : variant ?c = _, H : context [non_direct (variant ?c)] |- _ =>
      rewrite Hv in H
  | Hv : variant ?c = _ |- context [non_direct (variant ?c)] =>
      rewrite Hv
  end;
  simpl in *;
  repeat match goal with
  | H : context [combined_at ?m ?b] |- _ =>
      let x := fresh "x" in let E := fresh "E" in
      remember (combined_at m b) as x eqn:E in *; clear E; destruct x
  | |- context [combined_at ?m ?b] =>
      let x := fresh "x" in let E := fresh "E" in
      remember (combined_at m b) as x eqn:E in *; clear E; destruct x
  | H : context [non_direct (variant ?c)] |- _ =>
      let x := fresh "x" in let E := fresh "E" in
      remember (non_direct (variant c)) as x eqn:E in *; clear E; destruct x
  | |- context [non_direct (variant ?c)] =>
      let x := fresh "x" in let E := fresh "E" in
      remember (non_direct (variant c)) as x eqn:E in *; clear E; destruct x
  end.

(** Name the address of a temporary and record that it is fresh. *)
Ltac name_fresh :=
  match goal with
  | |- context [fresh ({[?a]} ∪ dom (shared ?st))] =>
      let tmp := fresh "tmp" in
      let Hne := fresh "Htmp" in
      let Hno := fresh "Htmp" in
      destruct (fresh_shared_spec st a) as [Hne Hno];
      set (tmp := fresh ({[a]} ∪ dom (shared st))) in *;
      clearbody tmp; simpl in Hno
  end.

(** Every handle seen in a store counts for its block. *)
Ltac saturate_refs_pos :=
  repeat match goal with
  | Hs : ?m !! ?h = Some ?s, Hp : ptr_counter_ ?s = Some ?b |- _ =>
      lazymatch goal with
      | _ : (0 < refs ptr_counter_ m b)%nat |- _ => fail
      | _ => pose proof (refs_pos ptr_counter_ m h s b Hs Hp)
      end
  | Hs : ?m !! ?h = Some ?s, Hp : weak_ptr_counter_ ?s = Some ?b |- _ =>
      lazymatch goal with
      | _ : (0 < refs weak_ptr_counter_ m b)%nat |- _ => fail
      | _ => pose proof (refs_pos weak_ptr_counter_ m h s b Hs Hp)
      end
  end.

(** Instantiate the strong invariant at every block and handle in sight. *)
Ltac saturate_strong Hi Hc :=
  repeat match goal with
  | Hb : heap _ !! ?b = Some ?c |- _ =>
      lazymatch goal with
      | _ : shared_count_ c = Z.of_nat _ |- _ => fail
      | _ => pose proof (si_count _ Hi b c Hb); pose proof (Hc b);
             pose proof (si_brk _ Hi b (ex_intro _ c Hb))
      end
  end;
  repeat match goal with
  | Hs : shared _ !! ?h = Some ?s, Hp : ptr_counter_ ?s = Some ?b |- _ =>
      lazymatch goal with
      | _ : is_Some (heap _ !! b) |- _ => fail
      | _ : heap _ !! b = Some _ |- _ => fail
      | _ => pose proof (si_live _ Hi h s b Hs Hp)
      end
  end;
  repeat match goal with
  | Hs : shared ?st !! ?h = Some ?s, Hp : ptr_counter_ ?s = Some ?b |- _ =>
      lazymatch goal with
      | _ : combined_at (heap st) b = false |- _ => fail
      | _ => assert (combined_at (heap st) b = false)
               by exact (si_direct _ Hi h s b Hs Hp)
      end
  | Hs : weak ?st !! ?h = Some ?s, Hp : weak_ptr_counter_ ?s = Some ?b |- _ =>
      lazymatch goal with
      | _ : combined_at (heap st) b = false, _ : (b < brk st)%nat |- _ => fail
      | _ => assert (combined_at (heap st) b = false)
               by exact (proj1 (si_weak_direct _ Hi h s b Hs Hp));
             assert (b < brk st)%nat
               by exact (proj2 (si_weak_direct _ Hi h s b Hs Hp))
      end
  end;
  repeat match goal with
  | Hb : is_Some (heap ?st !! ?b) |- _ =>
      lazymatch goal with
      | _ : (b < brk st)%nat |- _ => fail
      | _ => pose proof (si_brk _ Hi b Hb)
      end
  end.

(** Instantiate what the strong invariant says of the blocks that handles
    refer to. *)
Ltac saturate_direct Hi :=
  repeat match goal with
  | Hs : shared ?st !! ?h = Some ?s, Hp : ptr_counter_ ?s = Some ?b |- _ =>
      lazymatch goal with
      | _ : combined_at (heap st) b = false |- _ => fail
      | _ => assert (combined_at (heap st) b = false)
               by exact (si_direct _ Hi h s b Hs Hp)
      end
  | Hs : weak ?st !! ?h = Some ?s, Hp : weak_ptr_counter_ ?s = Some ?b |- _ =>
      lazymatch goal with
      | _ : combined_at (heap st) b = false, _ : (b < brk st)%nat |- _ => fail
      | _ => assert (combined_at (heap st) b = false)
               by exact (proj1 (si_weak_direct _ Hi h s b Hs Hp));
             assert (b < brk st)%nat
               by exact (proj2 (si_weak_direct _ Hi h s b Hs Hp))
      end
  end.

(** Two handles of one block make its count at least two. *)
Ltac saturate_refs_two :=
  repeat match goal with
  | H1 : ?m !! ?h1 = Some ?s1, H2 : ?m !! ?h2 = Some ?s2,
    P1 : ptr_counter_ ?s1 = Some ?b, P2 : ptr_counter_ ?s2 = Some ?b,
    Hne : ?h1 ≠ ?h2 |- _ =>
      lazymatch goal with
      | _ : (2 ≤ refs ptr_counter_ m b)%nat |- _ => fail
      | _ => pose proof (refs_two ptr_counter_ m h1 h2 s1 s2 b H1 H2 Hne P1 P2)
      end
  end.

(** ** Facts that follow from the invariants *)

Section InvariantFacts.
Context {T : Type}.
Implicit Types (st : state T) (b h this other : nat) (c : BasePtrCounter T).

Lemma strong_count_range st this s b c :
  strong_inv st → strong_capacity st →
  shared st !! this = Some s → ptr_counter_ s = Some b → heap st !! b = Some c →
  1 ≤ shared_count_ c < uint32_modulus.
Proof.
  intros Hi Hc Hs Hpc Hb. rewrite (si_count _ Hi b c Hb).
  pose proof (Hc b). pose proof (refs_pos ptr_counter_ _ _ _ _ Hs Hpc).
  unfold strong_refs in *. lia.
Qed.

(** Nothing is known of an address the allocator has not handed out. *)
Lemma strong_inv_beyond st b :
  strong_inv st → (brk st ≤ b)%nat →
  heap st !! b = None ∧
  refs ptr_counter_ (shared st) b = 0%nat ∧
  refs weak_ptr_counter_ (weak st) b = 0%nat.
Proof.
  intros Hi Hb. split; [|split].
  - destruct (heap st !! b) eqn:E; [|done].
    pose proof (si_brk _ Hi b (ex_intro _ _ E)). lia.
  - apply refs_zero. intros h x Hx Hp.
    pose proof (si_brk _ Hi _ (si_live _ Hi _ _ _ Hx Hp)). lia.
  - apply refs_zero. intros h x Hx Hp.
    destruct (si_weak_direct _ Hi _ _ _ Hx Hp). lia.
Qed.

Lemma strong_inv_fresh_block st :
  strong_inv st →
  heap st !! brk st = None ∧ refs ptr_counter_ (shared st) (brk st) = 0%nat.
Proof.
  intros Hi. destruct (strong_inv_beyond st (brk st) Hi) as (? & ? & ?); auto.
Qed.

End InvariantFacts.

(** [f x ≠ f y] gives [x ≠ y], which [lia] can use. *)
Ltac injective_neq :=
  repeat match goal with
  | H : ?f ?x ≠ ?f ?y |- _ =>
      assert (x ≠ y) by (let E := fresh in intros E; apply H; by rewrite E);
      clear H
  end.

(** What is known of the next two addresses of the allocator. *)
Ltac fresh_blocks Hi :=
  lazymatch type of Hi with
  | strong_inv ?st =>
      pose proof (strong_inv_beyond st (brk st) Hi (le_n _)) as (? & ? & ?);
      pose proof (strong_inv_beyond st (S (brk st)) Hi (le_S _ _ (le_n _)))
        as (? & ? & ?)
  end.

(** The strong invariant of a state written out by [cpp_cases], from the
    invariant [Hi] and the capacity [Hc] of the state before and the
    capacity [Hc'] of the state after. *)
Ltac strong_finish Hi Hc Hc' :=
  try fresh_blocks Hi;
  saturate_strong Hi Hc; saturate_refs_pos; saturate_refs_two;
  unfold strong_refs in *;
  try lia;
  try rewrite uint32_decr_small in * by lia;
  split; simpl; intros;
  try match goal with
      | |- occurrences (Allocate ?b) _ = _ =>
          let Ha := fresh "Ha" in pose proof (si_allocate _ Hi b) as Ha; simpl in Ha
      | |- occurrences (Destroy ?b) _ = _ =>
          let Ha := fresh "Ha" in pose proof (si_destroy _ Hi b) as Ha; simpl in Ha
      end;
  try match goal with
      | |- shared_count_ _ = Z.of_nat (refs _ _ ?b) => pose proof (Hc' b)
      | |- shared_count_ _ = Z.of_nat (strong_refs _ ?b) => pose proof (Hc' b)
      end;
  unfold strong_refs in *; simpl in *;
  occ_norm;
  saturate_refs_pos;
  refs_norm;
  combined_norm;
  map_lookups; hyp_lookups;
  unfold_contrib;
  split_decides;
  injective_neq;
  simpl in *;
  saturate_strong Hi Hc; saturate_refs_two; unfold strong_refs in *;
  simpl in *;
  try rewrite uint32_incr_small in * by lia;
  try lia;
  try (by eapply si_brk);
  try done;
  combined_cases;
  try lia;
  try done.

(** Instantiate the weak invariant at every block and handle in sight. *)
Ltac saturate_weak Hi Hw Hc :=
  repeat match goal with
  | Hb : heap ?st !! ?b = Some ?c |- _ =>
      lazymatch goal with
      | _ : weak_count_ c = Z.of_nat _ |- _ => fail
      | _ => pose proof (wi_count _ Hw b c Hb);
             pose proof (proj2 Hc b);
             pose proof (wi_owned _ Hw b (ex_intro _ c Hb)
                         : combined_at (heap st) b = false → _)
      end
  end;
  repeat match goal with
  | Hs : weak _ !! ?h = Some ?s, Hp : weak_ptr_counter_ ?s = Some ?b |- _ =>
      lazymatch goal with
      | _ : is_Some (heap _ !! b) |- _ => fail
      | _ : heap _ !! b = Some _ |- _ => fail
      | _ => pose proof (wi_live _ Hw h s b Hs Hp)
      end
  end;
  repeat match goal with
  | Hb : is_Some (heap ?st !! ?b) |- _ =>
      lazymatch goal with
      | _ : combined_at (heap st) b = false →
            (0 < strong_refs st b ∨ 0 < weak_refs st b)%nat |- _ => fail
      | _ : combined_at (heap st) b = false →
            (0 < refs _ (shared st) b ∨ 0 < refs _ (weak st) b)%nat |- _ => fail
      | _ => assert (combined_at (heap st) b = false →
                     (0 < strong_refs st b ∨ 0 < weak_refs st b)%nat)
               by exact (wi_owned _ Hw b Hb)
      end
  end.

(** From [¬ (A ∧ B)] with [B] at hand keep [¬ A]. *)
Ltac neg_conj :=
  repeat match goal with
  | H : _ ∧ _ |- _ => destruct H
  end;
  repeat match goal with
  | H : ¬ (?A ∧ ?B) |- _ =>
      first
        [ assert (¬ A) by (let HA := fresh in intros HA; apply H; split; [exact HA | done]);
          clear H
        | clear H ]
  end.

(** Discharge or drop the premises that [combined_cases] has decided. *)
Ltac decided_premises :=
  repeat match goal with
  | H : false = false → _ |- _ => specialize (H eq_refl)
  | H : true = false → _ |- _ => clear H
  end.

(** The weak invariant of a state written out by [cpp_cases]. *)
Ltac weak_finish Hi Hw Hc Hc' :=
  try fresh_blocks Hi;
  saturate_strong Hi (proj1 Hc); saturate_weak Hi Hw Hc;
  saturate_refs_pos; saturate_refs_two;
  unfold strong_refs, weak_refs in *;
  try lia;
  try rewrite uint32_decr_small in * by lia;
  split; simpl; intros;
  try match goal with
      | |- occurrences (Deallocate ?b) _ = _ =>
          let Ha := fresh "Ha" in pose proof (wi_deallocate _ Hw b) as Ha; simpl in Ha
      end;
  try match goal with
      | |- weak_count_ _ = Z.of_nat (refs _ _ ?b) => pose proof (proj2 Hc' b)
      | |- weak_count_ _ = Z.of_nat (weak_refs _ ?b) => pose proof (proj2 Hc' b)
      end;
  unfold strong_refs, weak_refs in *; simpl in *;
  occ_norm;
  saturate_refs_pos;
  refs_norm;
  combined_norm;
  map_lookups; hyp_lookups;
  unfold_contrib;
  split_decides;
  simpl in *;
  injective_neq;
  saturate_strong Hi (proj1 Hc); saturate_weak Hi Hw Hc; saturate_refs_two;
  unfold strong_refs, weak_refs in *;
  simpl in *;
  try rewrite uint32_incr_small in * by lia;
  try lia;
  try done;
  combined_cases;
  decided_premises;
  try lia;
  try done;
  neg_conj;
  try lia;
  try congruence;
  try done.

(** Handle counts before and after an operation. *)
Ltac stores_finish :=
  saturate_refs_pos;
  unfold strong_refs, weak_refs in *; simpl in *;
  refs_norm;
  map_lookups; hyp_lookups;
  unfold_contrib;
  split_decides;
  injective_neq;
  simpl in *;
  saturate_refs_pos;
  try lia.

(** ** Every operation keeps the invariants *)

Section Preservation.
Context {T : Type} {Args : Type} (construct : Args → T).
Implicit Types (st : state T) (b h this other : nat) (c : BasePtrCounter T).

Lemma SharedPtr_dtor_frame st this st' :
  exec (SharedPtr_dtor this) st = Ok st' →
  shared st' = shared st ∧ weak st' = weak st ∧ brk st' = brk st.
Proof.
  cpp_cases; intros; simplify_eq; done.
Qed.

Lemma step_null_consistent o st st' :
  null_consistent st → exec (step construct o) st = Ok st' → null_consistent st'.
Proof.
  intros Hn. destruct o; simpl.
  all: cpp_unfold; try name_fresh.
  all: cpp_cases.
  all: intros; simplify_eq.
  all: intros h' s'; simpl.
  all: repeat (rewrite lookup_insert || rewrite lookup_delete);
       repeat case_decide; intros; simplify_eq; simpl in *; eauto.
  all: try (eapply Hn; eauto; fail).
  all: repeat match goal with
       | Hs : shared _ !! _ = Some ?s, Hc : ptr_counter_ ?s = None |- _ =>
           pose proof (Hn _ _ Hs Hc); clear Hc
       end; try congruence.
Qed.

Lemma basic_step_strong_inv o st st' :
  basic_op o →
  strong_inv st → strong_capacity st →
  exec (step construct o) st = Ok st' → strong_capacity st' → strong_inv st'.
Proof.
  intros Hb Hi Hc. destruct o; simpl; try done.
  all: cpp_unfold; try name_fresh.
  all: cpp_cases; intros; simplify_eq.
  all: match goal with Hc' : strong_capacity _ |- _ => strong_finish Hi Hc Hc' end.
Qed.
Lemma basic_step_weak_inv o st st' :
  basic_op o → protocol_op o →
  strong_inv st → weak_inv st → capacity st →
  exec (step construct o) st = Ok st' → capacity st' → weak_inv st'.
Proof.
  intros Hb Hp Hi Hw Hc. destruct o; simpl; try done.
  all: cpp_unfold; try name_fresh.
  all: cpp_cases; intros; simplify_eq.
  all: match goal with Hc' : capacity _ |- _ => weak_finish Hi Hw Hc Hc' end.
Qed.

End Preservation.

(** ** Assignment and [reset] as release followed by construction *)

Section Desugaring.
Context {T : Type} {Args : Type} (construct : Args → T).
Implicit Types (st : state T) (b h this other : nat) (c : BasePtrCounter T).

Lemma exec_bind {A B} (m : M T A) (k : A → M T B) st :
  exec (bind m k) st =
  match m st with
  | Ok (a, st1) => exec (k a) st1
  | Fault f => Fault f
  end.
Proof. unfold exec, bind. by destruct (m st) as [[a st1]|f]. Qed.

Lemma SharedPtr_release_dtor h st : SharedPtr_release h st = SharedPtr_dtor h st.
Proof. cpp_cases; done. Qed.

Lemma bind_assoc {A B C} (m : M T A) (k : A → M T B) (k' : B → M T C) st :
  bind (bind m k) k' st = bind m (λ a, bind (k a) k') st.
Proof. unfold bind. by destruct (m st) as [[a st1]|f]. Qed.

Lemma SharedPtr_dtor_set_shared f h st :
  f (shared st) !! h = shared st !! h →
  SharedPtr_dtor h (set_shared f st) =
  match SharedPtr_dtor h st with
  | Ok (u, st1) => Ok (u, set_shared f st1)
  | Fault e => Fault e
  end.
Proof. intros Hf. cpp_cases; simplify_eq; done. Qed.

Lemma step_desugar o st : exec (step construct o) st = run construct (desugar o) st.
Proof.
  destruct o; simpl; try (by destruct (exec _ st)).
  - unfold SharedPtr_assign. destruct (decide (h = src)); [done|]. simpl.
    rewrite exec_bind, SharedPtr_release_dtor.
    unfold SharedPtr_destruct. rewrite exec_bind.
    destruct (SharedPtr_dtor h st) as [[[] st1]|f]; [|done].
    cpp_cases; state_eq.
  - unfold SharedPtr_move_assign. destruct (decide (h = src)); [done|]. simpl.
    rewrite exec_bind, SharedPtr_release_dtor.
    unfold SharedPtr_destruct. rewrite exec_bind.
    destruct (SharedPtr_dtor h st) as [[[] st1]|f]; [|done].
    cpp_cases; state_eq.
  - unfold SharedPtr_reset, fresh_shared.
    rewrite exec_bind. unfold SharedPtr_destruct at 2. rewrite exec_bind.
    name_fresh. simpl.
    unfold SharedPtr_default at 1, init_shared. rewrite Htmp0.
    rewrite exec_bind. unfold SharedPtr_move_assign.
    rewrite decide_False by done.
    unfold bind at 1.
    rewrite SharedPtr_release_dtor.
    rewrite SharedPtr_dtor_set_shared by (by rewrite lookup_insert_ne).
    rewrite exec_bind.
    destruct (SharedPtr_dtor h st) as [[[] st1]|f] eqn:Hd; [|done].
    assert (shared st1 = shared st) as Hs.
    { eapply SharedPtr_dtor_frame. unfold exec. by rewrite Hd. }
    clear Hd.
    assert (shared st1 !! tmp = None) as Htmp1 by by rewrite Hs.
    clear Hs Htmp0.
    cpp_cases; state_eq.
Qed.

Lemma SharedPtr_destruct_stores st st' h :
  exec (SharedPtr_destruct h) st = Ok st' →
  shared st' = delete h (shared st) ∧ weak st' = weak st.
Proof. cpp_cases; intros; simplify_eq; done. Qed.

Lemma SharedPtr_destruct_capacity st st' h :
  exec (SharedPtr_destruct h) st = Ok st' →
  (strong_capacity st → strong_capacity st') ∧
  (weak_capacity st → weak_capacity st').
Proof.
  intros [Hs Hw]%SharedPtr_destruct_stores. split; intros Hc b.
  - unfold strong_refs. rewrite Hs.
    pose proof (refs_delete_le ptr_counter_ (shared st) h b).
    specialize (Hc b). unfold strong_refs in Hc. lia.
  - unfold weak_refs. rewrite Hw. apply Hc.
Qed.

Lemma basic_or_desugared (o : op Args) :
  basic_op o ∨
  desugar o = [] ∨
  ∃ h o', desugar o = [SharedDestruct h; o'] ∧ basic_op o'.
Proof.
  destruct o; simpl; auto; try case_decide; eauto 10.
  all: right; right; eexists _, _; split; [done|]; done.
Qed.

Lemma step_strong_inv o st st' :
  strong_inv st → strong_capacity st →
  exec (step construct o) st = Ok st' → strong_capacity st' → strong_inv st'.
Proof.
  intros Hi Hc Hex Hc'.
  destruct (basic_or_desugared o) as [Hb|[Hn|(h & o' & Hd & Hb)]].
  - by eapply basic_step_strong_inv.
  - rewrite step_desugar, Hn in Hex. simpl in Hex. by simplify_eq.
  - rewrite step_desugar, Hd in Hex. simpl in Hex.
    destruct (exec (SharedPtr_destruct h) st) as [st1|] eqn:E1; [|done].
    destruct (exec (step construct o') st1) as [st2|] eqn:E2; [|done].
    simplify_eq.
    pose proof (SharedPtr_destruct_capacity _ _ _ E1) as [Hc1 _].
    eapply (basic_step_strong_inv construct o' st1); eauto.
    eapply (basic_step_strong_inv construct (SharedDestruct h) st); eauto.
    done.
Qed.

Lemma init_strong_inv : strong_inv (@init T).
Proof.
  split; simpl; intros; try done.
  all: try (rewrite decide_False; [done|]; lia).
  rewrite lookup_empty in H. by destruct H.
Qed.

Lemma init_capacity : capacity (@init T).
Proof.
  split; intros b; unfold strong_refs, weak_refs; simpl; rewrite refs_empty; done.
Qed.

Lemma run_strong_inv ops st st' :
  strong_inv st → strong_capacity st →
  run construct ops st = Ok st' →
  Forall strong_capacity (trajectory construct ops st) →
  strong_inv st' ∧ strong_capacity st'.
Proof.
  revert st. induction ops as [|o ops IH]; simpl; intros st Hi Hc Hr Hf.
  - by simplify_eq.
  - destruct (exec (step construct o) st) as [st1|] eqn:E; [|done].
    apply Forall_cons in Hf as [Hc1 Hf].
    apply (IH st1); [by eapply step_strong_inv|done..].
Qed.

End Desugaring.

(** ** How an operation changes the number of handles of a block *)

Section HandleCounts.
Context {T : Type} {Args : Type} (construct : Args → T).
Implicit Types (st : state T) (b h this other : nat) (c : BasePtrCounter T).

Lemma basic_step_refs o st st' b :
  basic_op o →
  exec (step construct o) st = Ok st' → refs_step st st' b.
Proof.
  intros Hb. destruct o; simpl; try done.
  all: cpp_unfold; try name_fresh.
  all: cpp_cases; intros; simplify_eq.
  all: split; simpl; intros.
  all: stores_finish.
Qed.

Lemma basic_step_constructing o st st' b :
  constructing o →
  exec (step construct o) st = Ok st' →
  (strong_refs st b ≤ strong_refs st' b)%nat ∧ weak st' = weak st ∧ brk st' = brk st.
Proof.
  intros Hb. destruct o; simpl; try done.
  all: cpp_unfold.
  all: cpp_cases; intros; simplify_eq.
  all: split; [|done]; simpl; intros.
  all: stores_finish.
Qed.

Lemma SharedPtr_destruct_brk st st' h :
  exec (SharedPtr_destruct h) st = Ok st' → brk st' = brk st.
Proof. cpp_cases; intros; simplify_eq; done. Qed.

(** Which blocks are combined ones after an operation: those that were,
    and of the blocks it allocates those that get no handle. *)
Lemma basic_step_combined o st st' b :
  basic_op o → strong_inv st →
  exec (step construct o) st = Ok st' →
  ((b < brk st)%nat → is_combined st' b = is_combined st b) ∧
  ((brk st ≤ b)%nat → (b < brk st')%nat →
     (0 < strong_refs st' b)%nat ∨ is_combined st' b = true).
Proof.
  intros Hb Hi. destruct o; simpl; try done.
  all: cpp_unfold; try name_fresh.
  all: cpp_cases; intros; simplify_eq.
  all: fresh_blocks Hi; saturate_direct Hi.
  all: split; simpl; intros.
  all: unfold strong_refs in *; simpl in *.
  all: saturate_refs_pos; refs_norm; combined_norm.
  all: map_lookups; hyp_lookups; unfold_contrib; split_decides.
  all: simpl in *; try lia; try done.
  all: combined_cases; try lia; try done.
  all: try (left; lia).
  all: try (right; done).
Qed.

Lemma refs_step_refl st b : refs_step st st b.
Proof. split; intros; lia. Qed.

Lemma step_refs o st st' b :
  exec (step construct o) st = Ok st' → refs_step st st' b.
Proof.
  intros Hex.
  destruct (basic_or_desugared o) as [Hb|[Hn|(h & o' & Hd & Hb)]].
  - by eapply basic_step_refs.
  - rewrite step_desugar, Hn in Hex. simpl in Hex. simplify_eq.
    apply refs_step_refl.
  - assert (constructing o') as Hc'.
    { destruct o; simpl in Hd; try done; try case_decide; by simplify_eq. }
    rewrite step_desugar, Hd in Hex. simpl in Hex.
    destruct (exec (SharedPtr_destruct h) st) as [st1|] eqn:E1; [|done].
    destruct (exec (step construct o') st1) as [st2|] eqn:E2; [|done].
    simplify_eq.
    pose proof (basic_step_refs (SharedDestruct h) st st1 b I E1) as [].
    pose proof (basic_step_refs o' st1 st' b Hb E2) as [].
    pose proof (basic_step_constructing o' st1 st' b Hc' E2) as (Hm & Hw & Hk).
    pose proof (SharedPtr_destruct_brk _ _ _ E1) as Hk1.
    split; intros; unfold weak_refs in *; rewrite ?Hw, ?Hk, ?Hk1 in *; lia.
Qed.

Lemma step_combined o st st' b :
  strong_inv st → strong_capacity st →
  exec (step construct o) st = Ok st' →
  ((b < brk st)%nat → is_combined st' b = is_combined st b) ∧
  ((brk st ≤ b)%nat → (b < brk st')%nat →
     (0 < strong_refs st' b)%nat ∨ is_combined st' b = true).
Proof.
  intros Hi Hc Hex.
  destruct (basic_or_desugared o) as [Hb|[Hn|(h & o' & Hd & Hb)]].
  - by eapply basic_step_combined.
  - rewrite step_desugar, Hn in Hex. simpl in Hex. simplify_eq.
    split; [done|lia].
  - assert (constructing o') as Hc'.
    { destruct o; simpl in Hd; try done; try case_decide; by simplify_eq. }
    rewrite step_desugar, Hd in Hex. simpl in Hex.
    destruct (exec (SharedPtr_destruct h) st) as [st1|] eqn:E1; [|done].
    destruct (exec (step construct o') st1) as [st2|] eqn:E2; [|done].
    simplify_eq.
    pose proof (SharedPtr_destruct_capacity _ _ _ E1) as [Hc1 _].
    assert (strong_inv st1) as Hi1.
    { eapply (basic_step_strong_inv construct (SharedDestruct h) st); eauto. done. }
    pose proof (basic_step_combined (SharedDestruct h) st st1 b I Hi E1) as [H1 _].
    pose proof (basic_step_combined o' st1 st' b Hb Hi1 E2) as [H2 _].
    pose proof (basic_step_constructing o' st1 st' b Hc' E2) as (_ & _ & Hk).
    pose proof (SharedPtr_destruct_brk _ _ _ E1) as Hk1.
    rewrite Hk, Hk1 in *. split; [|lia].
    intros Hlt. rewrite H2, H1; done.
Qed.

End HandleCounts.

(** ** Invariants along a program *)

Section Runs.
Context {T : Type} {Args : Type} (construct : Args → T).
Implicit Types (st : state T) (b h this other : nat) (c : BasePtrCounter T).

Lemma desugar_protocol (o : op Args) :
  protocol_op o → Forall protocol_op (desugar o).
Proof.
  destruct o; simpl; intros Hp; try case_decide; repeat constructor; done.
Qed.

Lemma step_weak_inv o st st' :
  protocol_op o →
  strong_inv st → weak_inv st → capacity st →
  exec (step construct o) st = Ok st' → capacity st' → weak_inv st'.
Proof.
  intros Hp Hi Hw Hc Hex Hc'.
  destruct (basic_or_desugared o) as [Hb|[Hn|(h & o' & Hd & Hb)]].
  - by eapply basic_step_weak_inv.
  - rewrite step_desugar, Hn in Hex. simpl in Hex. by simplify_eq.
  - pose proof (desugar_protocol o Hp) as Hps. rewrite Hd in Hps.
    apply Forall_cons in Hps as [_ [Hp' _]%Forall_cons].
    rewrite step_desugar, Hd in Hex. simpl in Hex.
    destruct (exec (SharedPtr_destruct h) st) as [st1|] eqn:E1; [|done].
    destruct (exec (step construct o') st1) as [st2|] eqn:E2; [|done].
    simplify_eq.
    pose proof (SharedPtr_destruct_capacity _ _ _ E1) as [Hc1 Hc2].
    assert (capacity st1) as Hcap1 by (split; [apply Hc1|apply Hc2]; apply Hc).
    eapply (basic_step_weak_inv construct o' st1); eauto.
    + eapply (basic_step_strong_inv construct (SharedDestruct h) st); eauto;
        [done|apply Hc|apply Hcap1].
    + eapply (basic_step_weak_inv construct (SharedDestruct h) st); eauto; done.
Qed.

Lemma init_weak_inv : weak_inv (@init T).
Proof.
  split; simpl; intros; try done.
  all: try (rewrite decide_False; [done|]; lia).
  rewrite lookup_empty in H. by destruct H.
Qed.

Lemma run_inv ops st st' :
  Forall protocol_op ops →
  strong_inv st → weak_inv st → capacity st →
  run construct ops st = Ok st' →
  Forall capacity (trajectory construct ops st) →
  strong_inv st' ∧ weak_inv st' ∧ capacity st'.
Proof.
  revert st. induction ops as [|o ops IH]; simpl; intros st Hp Hi Hw Hc Hr Hf.
  - by simplify_eq.
  - destruct (exec (step construct o) st) as [st1|] eqn:E; [|done].
    apply Forall_cons in Hf as [Hc1 Hf].
    apply Forall_cons in Hp as [Hp Hps].
    apply (IH st1); try done.
    + eapply step_strong_inv; eauto; [apply Hc|apply Hc1].
    + by eapply step_weak_inv.
Qed.

Lemma run_null_consistent ops st st' :
  null_consistent st → run construct ops st = Ok st' → null_consistent st'.
Proof.
  revert st. induction ops as [|o ops IH]; simpl; intros st Hn Hr.
  - by simplify_eq.
  - destruct (exec (step construct o) st) as [st1|] eqn:E; [|done].
    apply (IH st1); [|done]. by eapply step_null_consistent.
Qed.

Lemma run_app (l1 l2 : list (op Args)) st :
  run construct (l1 ++ l2) st =
  match run construct l1 st with
  | Ok st1 => run construct l2 st1
  | Fault f => Fault f
  end.
Proof.
  revert st. induction l1 as [|o l1 IH]; simpl; intros st; [done|].
  destruct (exec (step construct o) st); [apply IH|done].
Qed.

End Runs.

(** ** Memory safety of the protocol *)

Section Safety.
Context {T : Type} {Args : Type} (construct : Args → T).
Implicit Types (st : state T) (b h this other : nat) (c : BasePtrCounter T).




End Safety.

(** ** The claims about the counting protocol *)

Section Claims.
Context {T : Type} {Args : Type} (construct : Args → T).
Implicit Types (st : state T) (b h this other : nat) (c : BasePtrCounter T).

(** C1, as amended.  In every program during which no block has as many
    live [SharedPtr] handles as a [uint32_t] has values, [use_count()] on a
    live handle returns the number of live [SharedPtr] handles of its
    block. *)
Theorem use_count_counts_live_handles ops st :
  run construct ops init = Ok st →
  Forall strong_capacity (trajectory construct ops init) →
  ∀ h s b, shared st !! h = Some s → ptr_counter_ s = Some b →
    use_count h st = Ok (Z.of_nat (strong_refs st b), st).
Proof.
  intros Hr Hf h s b Hs Hp.
  destruct (run_strong_inv construct ops init st) as [Hi _];
    [apply init_strong_inv|apply (proj1 (@init_capacity T))|done..|].
  destruct (si_live _ Hi h s b Hs Hp) as [c Hc].
  unfold use_count, bind, read_shared, get_shared_count, bind, read_counter, ret.
  rewrite Hs, Hp, Hc. by rewrite (si_count _ Hi b c Hc).
Qed.

Lemma SharedPtr_dtor_destroy_events st st' h s b c :
  shared st !! h = Some s → ptr_counter_ s = Some b → heap st !! b = Some c →
  0 ≤ shared_count_ c < uint32_modulus →
  exec (SharedPtr_dtor h) st = Ok st' →
  occurrences (Destroy b) (trace st') =
    (occurrences (Destroy b) (trace st) +
     if decide (shared_count_ c = 1)%Z then 1 else 0)%nat ∧
  (shared_count_ c = 1 → ∀ c', heap st' !! b = Some c' → shared_count_ c' = 0) ∧
  occurrences (Deallocate b) (trace st') =
    (occurrences (Deallocate b) (trace st) +
     if decide (shared_count_ c = 1 ∧ weak_count_ c = 0)%Z then 1 else 0)%nat.
Proof.
  intros Hs Hp Hb Hn.
  destruct (decide (shared_count_ c = 0)) as [Hz|Hz].
  - cpp_exec. destruct (Z.ltb_spec 0 (shared_count_ c)); [lia|].
    intros; simplify_eq. rewrite !decide_False by lia.
    split; [lia|]. split; [lia|lia].
  - destruct (variant c) as [p|v] eqn:Hv.
    + unfold exec. erewrite SharedPtr_dtor_spec by (try done; lia).
      intros; simplify_eq. unfold release_strong.
      repeat case_decide; simpl; occ_norm; unfold destroy_events;
        destruct p as [?|]; simpl;
        rewrite ?decide_True by done; map_lookups;
        repeat split; try lia; intros; simplify_eq; try done.
      all: try (destruct H; lia).
      all: try (exfalso; apply H0; split; lia).
      all: rewrite decide_True in * by done; by simplify_eq.
    + assert (uint32_decr (shared_count_ c) = shared_count_ c - 1) as Hd
        by (apply uint32_decr_small; lia).
      cpp_exec. destruct (Z.ltb_spec 0 (shared_count_ c)); [|lia].
      cpp_exec. rewrite Hd.
      destruct (Z.eqb_spec (shared_count_ c - 1) 0); cpp_exec; [done|].
      intros; simplify_eq; simpl. rewrite !decide_False by lia.
      repeat split; try lia.
Qed.



Lemma refs_beyond_brk st b :
  strong_inv st → (brk st ≤ b)%nat →
  strong_refs st b = 0%nat ∧ weak_refs st b = 0%nat.
Proof.
  intros Hi Hb. by destruct (strong_inv_beyond st b Hi Hb) as (_ & ? & ?).
Qed.


Lemma combined_no_strong_refs st b :
  strong_inv st → is_combined st b = true → strong_refs st b = 0%nat.
Proof.
  intros Hi Hd. apply refs_zero. intros h x Hx Hp.
  pose proof (si_direct _ Hi _ _ _ Hx Hp). congruence.
Qed.

Lemma destroy_count st b :
  strong_inv st →
  occurrences (Destroy b) (trace st) =
  if decide ((b < brk st)%nat ∧ strong_refs st b = 0%nat ∧ is_combined st b = false)
  then 1%nat else 0%nat.
Proof. intros Hi. apply (si_destroy _ Hi). Qed.


Lemma run_combined_stable ops st st' b :
  strong_inv st → strong_capacity st →
  run construct ops st = Ok st' →
  Forall strong_capacity (trajectory construct ops st) →
  (b < brk st)%nat →
  (b < brk st')%nat ∧ is_combined st' b = is_combined st b.
Proof.
  revert st. induction ops as [|o ops IH]; simpl; intros st Hi Hc Hr Hf Hb.
  - by simplify_eq.
  - destruct (exec (step construct o) st) as [st1|] eqn:E; [|done].
    apply Forall_cons in Hf as [Hc1 Hf].
    destruct (step_combined construct o st st1 b Hi Hc E) as [Hold _].
    destruct (step_refs construct o st st1 b E) as [_ _ _ _ Hk].
    destruct (IH st1) as [Hlt Heq]; try done; [by eapply step_strong_inv|lia|].
    split; [done|]. rewrite Heq. apply Hold. done.
Qed.

Lemma referenced_block_is_direct st b :
  strong_inv st → (0 < strong_refs st b ∨ 0 < weak_refs st b)%nat →
  (b < brk st)%nat ∧ is_combined st b = false.
Proof.
  intros Hi [Hpos|Hpos]; destruct (refs_pos_inv _ _ _ Hpos) as (h & x & Hx & Hp).
  - split; [|by eapply si_direct]. eapply si_brk, si_live; eauto.
  - destruct (si_weak_direct _ Hi h x b Hx Hp). done.
Qed.

(** A block that has had a handle at some point of a program is a direct
    block at its end. *)
Lemma referenced_blocks_are_direct ops st st' st1 b :
  strong_inv st → strong_capacity st →
  run construct ops st = Ok st' →
  Forall strong_capacity (trajectory construct ops st) →
  In st1 (st :: trajectory construct ops st) →
  (0 < strong_refs st1 b ∨ 0 < weak_refs st1 b)%nat →
  (b < brk st')%nat ∧ is_combined st' b = false.
Proof.
  revert st. induction ops as [|o ops IH]; simpl; intros st Hi Hc Hr Hf Hin Hpos.
  - assert (st' = st) as -> by congruence.
    destruct Hin as [<-|[]]. by apply referenced_block_is_direct.
  - destruct (exec (step construct o) st) as [st2|] eqn:E; [|done].
    simpl in Hin. apply Forall_cons in Hf as [Hc2 Hf].
    destruct Hin as [<-|Hin].
    + destruct (referenced_block_is_direct st b Hi Hpos) as [Hb Hd].
      destruct (run_combined_stable (o :: ops) st st' b) as [Hlt Heq]; try done.
      { simpl. by rewrite E. }
      { simpl. rewrite E. by constructor. }
      split; [done|]. by rewrite Heq.
    + apply (IH st2); try done. by eapply step_strong_inv.
Qed.

(** C2, as amended.  In every program during which no block has as many
    live [SharedPtr] handles as a [uint32_t] has values:
    [destroy] has run once on a [DirectPtrCounter] block when no live
    [SharedPtr] refers to it, and not at all while one does; every block
    that has had a [SharedPtr] in the course of the program is such a
    block; an operation runs [destroy] on a block exactly when it takes
    the number of its live [SharedPtr] handles from 1 to 0; and
    [~SharedPtr] runs [destroy] exactly when the strong count it finds is
    1, which it leaves at 0. *)
Theorem destroy_runs_once_at_last_release ops st :
  run construct ops init = Ok st →
  Forall strong_capacity (trajectory construct ops init) →
  (∀ b, (b < brk st)%nat → is_combined st b = false →
     occurrences (Destroy b) (trace st) =
     if decide (strong_refs st b = 0%nat) then 1%nat else 0%nat) ∧
  (∀ st1 b, In st1 (trajectory construct ops init) →
     (0 < strong_refs st1 b)%nat →
     (b < brk st)%nat ∧ is_combined st b = false) ∧
  (∀ o st' b,
     exec (step construct o) st = Ok st' → strong_capacity st' →
     occurrences (Destroy b) (trace st') =
       (occurrences (Destroy b) (trace st) +
        if decide (strong_refs st b = 1 ∧ strong_refs st' b = 0)%nat
        then 1 else 0)%nat) ∧
  (∀ h s b c st',
     shared st !! h = Some s → ptr_counter_ s = Some b →
     heap st !! b = Some c →
     exec (SharedPtr_dtor h) st = Ok st' →
     occurrences (Destroy b) (trace st') =
       (occurrences (Destroy b) (trace st) +
        if decide (shared_count_ c = 1)%Z then 1 else 0)%nat ∧
     (shared_count_ c = 1 → ∀ c', heap st' !! b = Some c' → shared_count_ c' = 0)).
Proof.
  intros Hr Hf.
  destruct (run_strong_inv construct ops init st) as [Hi Hc];
    [apply init_strong_inv|apply (proj1 (@init_capacity T))|done..|].
  split; [|split; [|split]].
  - intros b Hb Hd. rewrite (destroy_count st b Hi), Hd.
    destruct (decide (strong_refs st b = 0%nat)).
    + by rewrite decide_True.
    + rewrite decide_False; [done|]. by intros (_ & ? & _).
  - intros st1 b Hin Hpos.
    apply (referenced_blocks_are_direct ops init st st1 b);
      [apply init_strong_inv|apply (proj1 (@init_capacity T))|done|done
      |by right|by left].
  - intros o st' b Hex Hc'.
    pose proof (step_strong_inv construct o st st' Hi Hc Hex Hc') as Hi'.
    rewrite (destroy_count st b Hi), (destroy_count st' b Hi').
    pose proof (step_refs construct o st st' b Hex) as [].
    destruct (step_combined construct o st st' b Hi Hc Hex) as [Hold Hnew].
    destruct (decide (brk st ≤ b)%nat) as [Hge|Hlt].
    + destruct (refs_beyond_brk st b Hi Hge) as [Hz _].
      destruct (decide (b < brk st')%nat) as [Hlt'|Hge'].
      * destruct (Hnew Hge Hlt') as [Hpos|Hcomb].
        -- repeat case_decide; lia.
        -- rewrite Hcomb. repeat case_decide; try lia.
           all: by destruct_and?.
      * repeat case_decide; lia.
    + rewrite Hold by lia.
      destruct (is_combined st b) eqn:Hd.
      * pose proof (combined_no_strong_refs st b Hi Hd).
        repeat case_decide; try lia. all: by destruct_and?.
      * repeat case_decide; try lia.
        all: try (destruct_and?; lia).
        all: exfalso; repeat match goal with
             | H : ¬ (_ ∧ _ ∧ _) |- _ => apply H; clear H; repeat split; try done; try lia
             end.
  - intros h s b c st' Hs Hp Hb Hex.
    pose proof (strong_count_range st h s b c Hi Hc Hs Hp Hb).
    destruct (SharedPtr_dtor_destroy_events st st' h s b c) as (H1 & H2 & _);
      try done. lia.
Qed.


(** What [MakeShared<T>(args...)] into a fresh variable does: two
    allocations, of the combined block and of a direct block that points
    to it.  The counts of the combined block stay 0, the handle refers to
    the direct block, and [get()] is the address of the combined block,
    not of the [T] in it. *)
Lemma MakeShared_spec st h args :
  shared st !! h = None →
  ∃ st',
    MakeShared construct h args st = Ok (tt, st') ∧
    trace st' = trace st ++ [Allocate (brk st); Allocate (S (brk st))] ∧
    heap st' =
      <[S (brk st) := mkCounter 1 0 (DirectPtrCounter (Some (CounterObject (brk st))))]>
        (<[brk st := mkCounter 0 0 (NonDirectPtrCounter (construct args))]> (heap st)) ∧
    brk st' = S (S (brk st)) ∧
    shared st' =
      <[h := mkShared (Some (S (brk st))) (Some (CounterObject (brk st)))]> (shared st) ∧
    weak st' = weak st ∧
    use_count h st' = Ok (1, st') ∧
    SharedPtr_get h st' = Ok (Some (CounterObject (brk st)), st').
Proof.
  intros Hh. cpp_unfold. name_fresh. cpp_exec.
  eexists. split; [reflexivity|]. simpl.
  rewrite <-!app_assoc. simpl.
  rewrite !insert_insert_eq.
  assert (delete tmp
    (<[tmp:={| ptr_counter_ := None; ptr_ := None |}]>
       (<[h:={| ptr_counter_ := Some (S (brk st));
                ptr_ := Some (CounterObject (brk st)) |}]>
          (<[tmp:={| ptr_counter_ := Some (S (brk st));
                    ptr_ := Some (CounterObject (brk st)) |}]>
             (shared st))))
    = <[h := mkShared (Some (S (brk st))) (Some (CounterObject (brk st)))]> (shared st))
    as Heq.
  { apply map_eq. intros k. map_lookups. repeat case_decide; simplify_eq; done. }
  repeat split; cpp_exec; try done.
Qed.

(** C9.  [s = s] on a [SharedPtr] and [w = w] on a [WeakPtr] variable
    return with the state they found: no handle, no count and no block has
    changed, so [use_count()], [get()], the block pointer and [expired()]
    are as before. *)
Theorem self_assignment_is_noop st s w :
  SharedPtr_assign s s st = Ok (tt, st) ∧
  (is_Some (weak st !! w) → WeakPtr_implicit_assign w w st = Ok (tt, st)).
Proof.
  split.
  - unfold SharedPtr_assign. by rewrite decide_True.
  - intros [x Hx]. cpp_exec. do 2 f_equal.
    destruct st as [hp bk sh wk tr]; simpl in *. f_equal.
    apply insert_id. by destruct x.
Qed.

(** C10, as amended.  Copy-constructing from a [SharedPtr] that has no
    block succeeds without touching a block, a count or the trace.  The
    new handle has no block, so [use_count()] on it is 0, and it has the
    pointer that the source caches, which is what [get()] returns on both.
    In a state that a program has reached that pointer is null. *)
Theorem copy_of_empty_handle_is_empty st src s h :
  shared st !! src = Some s → ptr_counter_ s = None →
  shared st !! h = None →
  ∃ st',
    SharedPtr_copy h src st = Ok (tt, st') ∧
    heap st' = heap st ∧ weak st' = weak st ∧ trace st' = trace st ∧
    shared st' = <[h := mkShared None (ptr_ s)]> (shared st) ∧
    SharedPtr_get src st = Ok (ptr_ s, st) ∧
    SharedPtr_get h st' = Ok (ptr_ s, st') ∧
    use_count h st' = Ok (0, st') ∧
    (∀ ops, run construct ops init = Ok st →
       ptr_ s = None ∧ SharedPtr_get h st' = Ok (None, st')).
Proof.
  intros Hs Hp Hh.
  assert (h ≠ src) as Hne by congruence.
  assert (SharedPtr_get src st = Ok (ptr_ s, st)) as Hg.
  { cpp_exec. by destruct (ptr_ s). }
  unfold SharedPtr_copy, bind at 1, get_ptr_counter, bind, read_shared, ret.
  rewrite Hs. fold (@ret T (state T)). unfold bind. rewrite Hg.
  cpp_exec. eexists. split; [reflexivity|]. simpl.
  repeat split; cpp_exec; try done.
  - by destruct (ptr_ s).
  - eapply (run_null_consistent construct ops init st); [|done..].
    intros k x Hk. simpl in Hk. by rewrite lookup_empty in Hk.
  - assert (ptr_ s = None) as ->; [|done].
    eapply (run_null_consistent construct ops init st); [|done..].
    intros k x Hk. simpl in Hk. by rewrite lookup_empty in Hk.
Qed.

(** C8, as amended.  On a count of 0 the decrement operations do not
    trap: they wrap the count to [2^32 - 1].  Their callers test the count
    first.  On a strong count of 0 [~SharedPtr] returns with the state it
    found.  On a weak count of 0 [~WeakPtr] does not decrement: it returns
    with the state it found where the strong count is not 0, and where the
    strong count is 0 too it deallocates the block. *)
Theorem zero_counts_are_skipped_not_trapped st b c :
  heap st !! b = Some c →
  (shared_count_ c = 0 →
     decrement_shared_count b st =
       Ok (tt, set_heap (insert b (mkCounter (uint32_modulus - 1) (weak_count_ c)
                                             (variant c))) st) ∧
     (∀ h s, shared st !! h = Some s → ptr_counter_ s = Some b →
        SharedPtr_dtor h st = Ok (tt, st))) ∧
  (weak_count_ c = 0 →
     decrement_weak_count b st =
       Ok (tt, set_heap (insert b (mkCounter (shared_count_ c) (uint32_modulus - 1)
                                             (variant c))) st) ∧
     (∀ w x, weak st !! w = Some x → weak_ptr_counter_ x = Some b →
        WeakPtr_dtor w st =
        if shared_count_ c =? 0
        then Ok (tt, emit (Deallocate b) (set_heap (delete b) st))
        else Ok (tt, st))).
Proof.
  intros Hb. split; intros Hz.
  - split.
    + cpp_exec. by rewrite Hz.
    + intros h s Hs Hp. cpp_exec. by rewrite Hz.
  - split.
    + cpp_exec. by rewrite Hz.
    + intros w x Hw Hp. cpp_exec. rewrite Hz. simpl. cpp_exec. rewrite Hz. simpl.
      cpp_exec. by destruct (Z.eqb_spec (shared_count_ c) 0); cpp_exec.
Qed.

(** [lock] reads and never writes: it takes no strong reference. *)
Lemma lock_reads_only st w v st' : lock w st = Ok (v, st') → st' = st.
Proof. cpp_cases; intros; by simplify_eq. Qed.

(** On an expired handle [lock] evaluates the [std::runtime_error] operand. *)
Lemma lock_expired st w :
  expired w st = Ok (true, st) → lock w st = Ok (RuntimeError, st).
Proof. unfold lock, bind. by intros ->. Qed.

(** On a live handle [lock] yields the block pointer as it is stored. *)
Lemma lock_live st w :
  expired w st = Ok (false, st) →
  ∃ b, weak_get_ptr_counter w st = Ok (Some b, st) ∧
       lock w st = Ok (CounterPointer (Some b), st).
Proof.
  unfold lock, bind. intros He. rewrite He. revert He.
  cpp_cases; intros; simplify_eq; eauto.
Qed.

(** Observing an empty [SharedPtr] goes through the null block pointer. *)
Lemma WeakPtr_from_empty_shared st w h s :
  shared st !! h = Some s → ptr_counter_ s = None → weak st !! w = None →
  WeakPtr_from_shared w h st = Fault NullDereference.
Proof. intros Hs Hp Hw. cpp_exec. done. Qed.

End Claims.

(** ** Counters that wrap around *)

Section Overflow.

Lemma many_copies_S n :
  many_copies (S n) = many_copies n ++ [SharedCopy (S n) 0%nat].
Proof. unfold many_copies. by rewrite seq_S, map_app, app_comm_cons. Qed.

Lemma destroy_all_S n :
  destroy_all (S n) = destroy_all n ++ [SharedDestruct n].
Proof. unfold destroy_all. by rewrite seq_S, map_app. Qed.

Lemma uint32_incr_mod z : uint32_incr (z mod uint32_modulus) = (z + 1) mod uint32_modulus.
Proof. unfold uint32_incr. by rewrite Zplus_mod_idemp_l. Qed.

(** The state after [many_copies n]: block [0] carries the wrapped count of
    [n + 1] handles. *)
Lemma many_copies_state n :
  ∃ st : state Z,
    run id (many_copies n) init = Ok st ∧
    heap st = {[ 0%nat := mkCounter ((Z.of_nat n + 1) mod uint32_modulus) 0
                            (DirectPtrCounter first_object) ]} ∧
    brk st = 1%nat ∧
    (∀ k, shared st !! k = if decide (k ≤ n)%nat then Some first_handle else None) ∧
    strong_refs st 0 = S n ∧
    weak st = ∅ ∧
    trace st = [Allocate 0].
Proof.
  induction n as [|n (st & Hr & Hh & Hb & Hs & Hn & Hw & Ht)].
  - eexists. split; [reflexivity|]. simpl. repeat split.
    intros k. map_lookups. rewrite lookup_empty.
    repeat case_decide; try done; lia.
  - rewrite many_copies_S, run_app, Hr. simpl.
    assert (shared st !! 0%nat = Some first_handle) as H0.
    { rewrite Hs. by rewrite decide_True by lia. }
    assert (shared st !! S n = None) as H1.
    { rewrite Hs. by rewrite decide_False by lia. }
    assert (heap st !! 0%nat = Some (mkCounter ((Z.of_nat n + 1) mod uint32_modulus) 0
                            (DirectPtrCounter first_object))) as H2.
    { rewrite Hh. apply lookup_singleton_eq. }
    cpp_exec. eexists. split; [reflexivity|]. simpl. repeat split; try done.
    + rewrite Hh, insert_singleton_eq. do 2 f_equal.
      rewrite uint32_incr_mod. f_equal. lia.
    + intros k. map_lookups. rewrite Hs. repeat case_decide; try done; lia.
    + unfold strong_refs in *. simpl. rewrite refs_insert_None by done.
      rewrite Hn. unfold contributes. simpl. lia.
Qed.

(** Once the count has wrapped to [0], destructors leave the block alone. *)
Lemma destroy_all_state n j :
  (Z.of_nat n + 1) mod uint32_modulus = 0 → (j ≤ S n)%nat →
  ∃ st : state Z,
    run id (many_copies n ++ destroy_all j) init = Ok st ∧
    heap st = {[ 0%nat := mkCounter 0 0 (DirectPtrCounter first_object) ]} ∧
    brk st = 1%nat ∧
    (∀ k, shared st !! k =
          if decide (j ≤ k ≤ n)%nat then Some first_handle else None) ∧
    weak st = ∅ ∧
    trace st = [Allocate 0].
Proof.
  intros Hz. induction j as [|j IH]; intros Hj.
  - destruct (many_copies_state n) as (st & Hr & Hh & Hb & Hs & _ & Hw & Ht).
    exists st. unfold destroy_all. simpl. rewrite app_nil_r.
    repeat split; try done.
    + by rewrite Hh, Hz.
    + intros k. rewrite Hs. repeat case_decide; try done; lia.
  - destruct IH as (st & Hr & Hh & Hb & Hs & Hw & Ht); [lia|].
    rewrite destroy_all_S, app_assoc, run_app, Hr. simpl.
    assert (shared st !! j = Some first_handle) as H0.
    { rewrite Hs. by rewrite decide_True by lia. }
    assert (heap st !! 0%nat = Some (mkCounter 0 0 (DirectPtrCounter first_object))) as H2.
    { rewrite Hh. apply lookup_singleton_eq. }
    cpp_exec. eexists. split; [reflexivity|]. simpl. repeat split; try done.
    intros k. map_lookups. rewrite Hs. repeat case_decide; try done; lia.
Qed.

Lemma uint32_last_spec : Z.of_nat uint32_last + 1 = uint32_modulus.
Proof.
  unfold uint32_last. rewrite Z2Nat.id.
  - apply Z.sub_add.
  - unfold uint32_modulus. apply Z.lt_le_pred. reflexivity.
Qed.

Lemma wraps_at n :
  Z.of_nat n + 1 = uint32_modulus → (Z.of_nat n + 1) mod uint32_modulus = 0.
Proof. intros ->. apply Z_mod_same_full. Qed.

Lemma use_count_wraps_at n :
  Z.of_nat n + 1 = uint32_modulus →
  ∃ st : state Z,
    run id (many_copies n) init = Ok st ∧
    shared st !! 0%nat = Some first_handle ∧
    Z.of_nat (strong_refs st 0) = uint32_modulus ∧
    use_count 0 st = Ok (0, st).
Proof.
  intros Hn.
  destruct (many_copies_state n) as (st & Hr & Hh & Hb & Hs & Hk & Hw & Ht).
  exists st. split; [done|].
  assert (shared st !! 0%nat = Some first_handle) as H0.
  { rewrite Hs. by rewrite decide_True by lia. }
  split; [done|]. split.
  - rewrite Hk. lia.
  - unfold use_count, bind, read_shared, get_shared_count, bind, read_counter, ret.
    rewrite H0. simpl. rewrite Hh, lookup_singleton_eq. simpl.
    by rewrite wraps_at.
Qed.

Lemma all_destroyed_at n :
  Z.of_nat n + 1 = uint32_modulus →
  ∃ st : state Z,
    run id (many_copies n ++ destroy_all (S n)) init = Ok st ∧
    shared st = ∅ ∧ weak st = ∅ ∧
    heap st !! 0%nat = Some (mkCounter 0 0 (DirectPtrCounter first_object)) ∧
    trace st = [Allocate 0].
Proof.
  intros Hn.
  destruct (destroy_all_state n (S n))
    as (st & Hr & Hh & Hb & Hs & Hw & Ht); [by apply wraps_at|lia|].
  exists st. split; [done|]. rewrite Ht, Hh. repeat split; try done.
  apply map_eq. intros k. rewrite Hs, lookup_empty.
  rewrite decide_False; [done|lia].
Qed.

(** C1, as stated, fails: after a raw-pointer construction and
    [2^32 - 1] copies, [2^32] handles of block 0 are live and [use_count()]
    is 0. *)
Lemma use_count_wraps_to_zero :
  ∃ st : state Z,
    run id (many_copies uint32_last) init = Ok st ∧
    shared st !! 0%nat = Some first_handle ∧
    Z.of_nat (strong_refs st 0) = uint32_modulus ∧
    use_count 0 st = Ok (0, st).
Proof. exact (use_count_wraps_at uint32_last uint32_last_spec). Qed.

(** After [2^32] handles of block 0 have been made and all of them
    destroyed, [destroy] has not run on block 0. *)
Lemma destroy_never_runs_after_wrap :
  ∃ st : state Z,
    run id (many_copies uint32_last ++ destroy_all (S uint32_last)) init = Ok st ∧
    shared st = ∅ ∧ weak st = ∅ ∧
    occurrences (Allocate 0) (trace st) = 1%nat ∧
    occurrences (Destroy 0) (trace st) = 0%nat.
Proof.
  destruct (all_destroyed_at uint32_last uint32_last_spec)
    as (st & Hr & Hs & Hw & Hh & Ht).
  exists st. rewrite Ht.
  split; [exact Hr|]. split; [exact Hs|]. split; [exact Hw|].
  split; [try exact Hh|]; reflexivity.
Qed.


End Overflow.

(** ** Further properties of the member functions *)

Section MemberFunctions.
Context {T : Type}.
Implicit Types (st : state T) (b h this other : nat) (c : BasePtrCounter T).

Lemma bind_ext_Ok {A B} (m : M T A) (k1 k2 : A → M T B) st r :
  (∀ a st1, k1 a st1 = Ok r ↔ k2 a st1 = Ok r) →
  bind m k1 st = Ok r ↔ bind m k2 st = Ok r.
Proof. intros Hk. unfold bind. destruct (m st) as [[a st1]|f]; [apply Hk|done]. Qed.

(** X1.  [SharedPtr(SharedPtr&& other)] into a fresh variable takes the
    block pointer of [other] and what [other.get()] returns, and leaves
    [other] empty: [use_count()] on it is 0 and [get()] is null.  No block
    and no count is touched, and every block has as many handles as
    before. *)
Theorem move_construction_transfers_ownership st h src s p :
  shared st !! src = Some s → shared st !! h = None →
  SharedPtr_get src st = Ok (p, st) →
  ∃ st',
    SharedPtr_move h src st = Ok (tt, st') ∧
    shared st' = <[src := mkShared None None]>
                   (<[h := mkShared (ptr_counter_ s) p]> (shared st)) ∧
    heap st' = heap st ∧ weak st' = weak st ∧ trace st' = trace st ∧
    (∀ b, strong_refs st' b = strong_refs st b) ∧
    use_count src st' = Ok (0, st') ∧
    SharedPtr_get src st' = Ok (None, st').
Proof.
  intros Hs Hh Hg.
  assert (h ≠ src) as Hne by congruence.
  unfold SharedPtr_move, bind at 1, get_ptr_counter, bind, read_shared, ret.
  rewrite Hs. fold (@ret (state T)). unfold bind. rewrite Hg.
  cpp_exec. eexists. split; [reflexivity|]. simpl.
  rewrite !insert_insert_eq.
  repeat split; cpp_exec; try done.
  intros b. unfold strong_refs. simpl.
  pose proof (refs_insert_total ptr_counter_
    (<[h:=mkShared (ptr_counter_ s) p]> (shared st)) src (mkShared None None) b) as H1.
  rewrite lookup_insert_ne in H1 by done. rewrite Hs in H1.
  rewrite (refs_insert_None ptr_counter_ (shared st) h _ b Hh) in H1.
  unfold contributes_opt, contributes in H1. simpl in H1.
  repeat case_decide; lia.
Qed.

(** X2.  Between distinct variables, [h = src] ends as destroying [h] and
    copy-constructing it from [src] does, [h = std::move(src)] as
    destroying [h] and move-constructing it from [src], and [h.reset()]
    as destroying [h] and default-constructing it: the same state, or the
    same fault. *)
Theorem assignment_is_release_then_construction st h src :
  (h ≠ src →
   exec (SharedPtr_assign h src) st =
   exec (bind (SharedPtr_destruct h) (λ _, SharedPtr_copy h src)) st) ∧
  (h ≠ src →
   exec (SharedPtr_move_assign h src) st =
   exec (bind (SharedPtr_destruct h) (λ _, SharedPtr_move h src)) st) ∧
  exec (SharedPtr_reset h) st =
  exec (bind (SharedPtr_destruct h) (λ _, SharedPtr_default h)) st.
Proof.
  split; [|split].
  - intros Hne.
    pose proof (step_desugar (λ x : T, x) (SharedAssign h src) st) as H.
    simpl in H. rewrite decide_False in H by done. simpl in H.
    rewrite H, exec_bind. unfold exec at 1.
    destruct (SharedPtr_destruct h st) as [[[] st1]|f]; [|done].
    by destruct (exec _ st1).
  - intros Hne.
    pose proof (step_desugar (λ x : T, x) (SharedMoveAssign h src) st) as H.
    simpl in H. rewrite decide_False in H by done. simpl in H.
    rewrite H, exec_bind. unfold exec at 1.
    destruct (SharedPtr_destruct h st) as [[[] st1]|f]; [|done].
    by destruct (exec _ st1).
  - pose proof (step_desugar (λ x : T, x) (SharedReset h) st) as H.
    simpl in H.
    rewrite H, exec_bind. unfold exec at 1.
    destruct (SharedPtr_destruct h st) as [[[] st1]|f]; [|done].
    by destruct (exec _ st1).
Qed.

(** X3.  Where [h.reset()] returns, [h] is empty ([use_count()] is 0 and
    [get()] is null), no other handle has changed, and a second
    [h.reset()] changes nothing at all. *)
Theorem reset_empties_the_handle st st' h :
  exec (SharedPtr_reset h) st = Ok st' →
  shared st' = <[h := mkShared None None]> (shared st) ∧
  weak st' = weak st ∧
  use_count h st' = Ok (0, st') ∧
  SharedPtr_get h st' = Ok (None, st') ∧
  exec (SharedPtr_reset h) st' = Ok st'.
Proof.
  pose proof (step_desugar (λ x : T, x) (SharedReset h)) as Hd. simpl in Hd.
  rewrite Hd. intros Hr.
  destruct (exec (SharedPtr_destruct h) st) as [st1|] eqn:E1; [|done].
  destruct (exec (SharedPtr_default h) st1) as [st2|] eqn:E2; [|done].
  simplify_eq.
  apply SharedPtr_destruct_stores in E1 as [Hs Hw].
  assert (shared st' = <[h:=mkShared None None]> (shared st) ∧ weak st' = weak st)
    as [Hs' Hw'].
  { revert E2. cpp_cases; intros; simplify_eq; simpl.
    rewrite Hs, Hw. by rewrite insert_delete_eq. }
  assert (shared st' !! h = Some (mkShared None None)) as Hh
    by (rewrite Hs'; apply lookup_insert_eq).
  split; [done|]. split; [done|].
  split; [by cpp_exec|]. split; [by cpp_exec|].
  rewrite Hd. cpp_exec.
  destruct st' as [hp bk sh wk tr]; simpl in *.
  do 2 f_equal. rewrite insert_delete_eq. apply insert_id. done.
Qed.

(** X4.  [operator*] yields the object that [get()] points to, and
    [operator->] is [get()].  Where [get()] is null, as on an empty
    handle, [operator->] returns null and [operator*] dereferences a null
    pointer. *)
Theorem operator_star_follows_get st h :
  (∀ o, SharedPtr_get h st = Ok (Some o, st) →
        SharedPtr_operator_star h st = Ok (o, st) ∧
        SharedPtr_operator_arrow h st = Ok (Some o, st)) ∧
  (SharedPtr_get h st = Ok (None, st) →
        SharedPtr_operator_star h st = Fault NullDereference ∧
        SharedPtr_operator_arrow h st = Ok (None, st)) ∧
  (shared st !! h = Some (mkShared None None) →
        SharedPtr_operator_star h st = Fault NullDereference).
Proof.
  unfold SharedPtr_operator_star, SharedPtr_operator_arrow.
  split; [|split].
  - intros o. cpp_cases; intros; simplify_eq; done.
  - cpp_cases; intros; simplify_eq; done.
  - intros Hs. cpp_exec. done.
Qed.

(** X5.  Where the cast of the converting assignment is the identity, the
    assignment returns exactly when the copy assignment does, and with the
    same state. *)
Theorem converting_assignment_with_same_class st this other r :
  SharedPtr_converting_assign id this other st = Ok r ↔
  SharedPtr_assign this other st = Ok r.
Proof.
  unfold SharedPtr_converting_assign, SharedPtr_assign.
  destruct (decide (this = other)); [done|].
  apply bind_ext_Ok. intros [] st1.
  cpp_cases.
  all: rewrite ?insert_insert_eq; try done.
  all: split; intros; simplify_eq.
Qed.

(** X6.  Where the cast of the converting assignment gives [nullptr], an
    empty handle assigned from [other] takes the pointer that
    [other.get()] returns and no block: [get()] on it is that pointer,
    [use_count()] is 0, and no count has changed. *)
Theorem converting_assignment_with_unrelated_class st this other s p :
  this ≠ other →
  shared st !! this = Some s → ptr_counter_ s = None →
  SharedPtr_get other st = Ok (p, st) →
  ∃ st',
    SharedPtr_converting_assign (λ _, None) this other st = Ok (tt, st') ∧
    shared st' = <[this := mkShared None p]> (shared st) ∧
    heap st' = heap st ∧ weak st' = weak st ∧ trace st' = trace st ∧
    use_count this st' = Ok (0, st') ∧
    SharedPtr_get this st' = Ok (p, st').
Proof.
  intros Hne Hs Hp. unfold SharedPtr_converting_assign.
  rewrite decide_False by done.
  cpp_cases; intros; simplify_eq.
  all: eexists; split; [reflexivity|]; simpl.
  all: rewrite ?insert_insert_eq.
  all: repeat split; cpp_exec; try done.
  all: by destruct p.
Qed.

(** X7.  [destroy] on a [DirectPtrCounter] deletes the object if the
    pointer is set and clears the pointer, so a second [destroy] on the
    block deletes nothing.  The counts are as they were. *)
Theorem second_destroy_deletes_nothing st b c p :
  heap st !! b = Some c → variant c = DirectPtrCounter p →
  ∃ st1 st2,
    exec (destroy b) st = Ok st1 ∧
    exec (destroy b) st1 = Ok st2 ∧
    trace st1 = trace st ++ Destroy b ::
                  match p with Some o => [Delete o] | None => [] end ∧
    heap st1 = <[b := mkCounter (shared_count_ c) (weak_count_ c)
                        (DirectPtrCounter None)]> (heap st) ∧
    trace st2 = trace st1 ++ [Destroy b] ∧
    heap st2 = heap st1.
Proof.
  intros Hb Hv. cpp_exec. destruct p as [o|]; cpp_exec.
  all: eexists _, _; split; [reflexivity|]; cpp_exec.
  all: split; [reflexivity|]; simpl.
  all: rewrite <-?app_assoc; simpl; rewrite ?insert_insert_eq; done.
Qed.

(** X8.  [SharedPtr(Y* ptr)] into a fresh variable allocates one block and
    nothing else, with strong count 1 and weak count 0; [use_count()] on
    the handle is 1 and [get()] is [ptr].  This is so for a null [ptr]
    too: the handle is not an empty one. *)
Theorem raw_pointer_construction_owns_a_new_block st h p :
  shared st !! h = None →
  ∃ st',
    SharedPtr_from_raw h p st = Ok (tt, st') ∧
    trace st' = trace st ++ [Allocate (brk st)] ∧
    heap st' = <[brk st := mkCounter 1 0 (DirectPtrCounter p)]> (heap st) ∧
    brk st' = S (brk st) ∧
    shared st' = <[h := mkShared (Some (brk st)) p]> (shared st) ∧
    weak st' = weak st ∧
    use_count h st' = Ok (1, st') ∧
    SharedPtr_get h st' = Ok (p, st').
Proof.
  intros Hh. cpp_exec. eexists. split; [reflexivity|]. simpl.
  rewrite !insert_insert_eq.
  repeat split; cpp_exec; try done.
  destruct p; [done|]. by cpp_exec.
Qed.

(** X9.  [SharedPtr(BasePtrCounter* ptr_counter)] into a fresh variable:
    from [nullptr] the handle is empty and no memory is touched; from a
    block in memory the handle takes the block and what its [get_ptr()]
    returns, and the strong count goes up by one. *)
Theorem block_pointer_construction_shares_or_stays_empty st h :
  shared st !! h = None →
  (∃ st',
     SharedPtr_from_counter h None st = Ok (tt, st') ∧
     shared st' = <[h := mkShared None None]> (shared st) ∧
     heap st' = heap st ∧ trace st' = trace st ∧
     use_count h st' = Ok (0, st')) ∧
  (∀ b c, heap st !! b = Some c →
     ∃ st' p,
       SharedPtr_from_counter h (Some b) st = Ok (tt, st') ∧
       get_ptr b st = Ok (p, st) ∧
       shared st' = <[h := mkShared (Some b) p]> (shared st) ∧
       heap st' = <[b := mkCounter (uint32_incr (shared_count_ c))
                           (weak_count_ c) (variant c)]> (heap st) ∧
       trace st' = trace st ∧
       use_count h st' = Ok (uint32_incr (shared_count_ c), st')).
Proof.
  intros Hh. split.
  - cpp_exec. eexists. split; [reflexivity|]. simpl. repeat split; cpp_exec; done.
  - intros b c Hb. cpp_exec.
    destruct (variant c) as [p|v] eqn:Hv; cpp_exec.
    all: eexists _, _; split; [reflexivity|]; simpl.
    all: repeat split; cpp_exec; try done.
    all: by rewrite Hv.
Qed.

(** X10.  [WeakPtr(const SharedPtr<Y>& other)] into a fresh variable, from
    a handle whose block is in memory: the weak count of the block goes up
    by one and its strong count stays, so [use_count()] on [other] is what
    it was, and [expired()] on the new handle says whether the strong
    count is 0. *)
Theorem observing_adds_one_weak_reference st w h s b c :
  weak st !! w = None →
  shared st !! h = Some s → ptr_counter_ s = Some b → heap st !! b = Some c →
  ∃ st',
    WeakPtr_from_shared w h st = Ok (tt, st') ∧
    weak st' = <[w := mkWeak (Some b)]> (weak st) ∧
    heap st' = <[b := mkCounter (shared_count_ c)
                        (uint32_incr (weak_count_ c)) (variant c)]> (heap st) ∧
    shared st' = shared st ∧ trace st' = trace st ∧
    use_count h st' = Ok (shared_count_ c, st') ∧
    expired w st' = Ok (shared_count_ c =? 0, st').
Proof.
  intros Hw Hs Hb Hc. cpp_exec. eexists. split; [reflexivity|]. simpl.
  repeat split; cpp_exec; done.
Qed.

(** X11.  [WeakPtr(WeakPtr<Y>&& other)] into a fresh variable takes the
    block pointer of [other] and leaves [other] empty, so [expired()] on
    it is true.  No block is touched, and every block has as many weak
    handles as before. *)
Theorem weak_move_construction_transfers_observation st w src x :
  weak st !! src = Some x → weak st !! w = None →
  ∃ st',
    WeakPtr_move w src st = Ok (tt, st') ∧
    weak st' = <[src := mkWeak None]>
                 (<[w := mkWeak (weak_ptr_counter_ x)]> (weak st)) ∧
    heap st' = heap st ∧ shared st' = shared st ∧ trace st' = trace st ∧
    (∀ b, weak_refs st' b = weak_refs st b) ∧
    expired src st' = Ok (true, st').
Proof.
  intros Hx Hw.
  assert (w ≠ src) as Hne by congruence.
  cpp_exec. eexists. split; [reflexivity|]. simpl.
  repeat split; cpp_exec; try done.
  intros b. unfold weak_refs. simpl.
  pose proof (refs_insert_total weak_ptr_counter_
    (<[w:=mkWeak (weak_ptr_counter_ x)]> (weak st)) src (mkWeak None) b) as H1.
  rewrite lookup_insert_ne in H1 by done. rewrite Hx in H1.
  rewrite (refs_insert_None weak_ptr_counter_ (weak st) w _ b Hw) in H1.
  unfold contributes_opt, contributes in H1. simpl in H1.
  repeat case_decide; lia.
Qed.

(** X12.  Copy construction of a [WeakPtr] into a fresh variable.  From a
    [WeakPtr<T>] the member-wise constructor runs: the new handle has the
    block pointer of the source and nothing else changes, so the block of
    the source has one weak handle more and the weak count it had.  From a
    [WeakPtr<Y>] of another type the constructor of lines 287-295 runs: it
    tests the block pointer, makes an empty handle from an empty one, and
    adds one to the weak count of a block in memory. *)
Theorem weak_copy_counts_only_when_converting st w src x :
  weak st !! src = Some x → weak st !! w = None →
  (∃ st',
     WeakPtr_implicit_copy w src st = Ok (tt, st') ∧
     weak st' = <[w := mkWeak (weak_ptr_counter_ x)]> (weak st) ∧
     heap st' = heap st ∧ shared st' = shared st ∧ trace st' = trace st ∧
     (∀ b, weak_ptr_counter_ x = Some b → weak_refs st' b = S (weak_refs st b))) ∧
  (weak_ptr_counter_ x = None →
   ∃ st',
     WeakPtr_converting_copy w src st = Ok (tt, st') ∧
     weak st' = <[w := mkWeak None]> (weak st) ∧
     heap st' = heap st ∧ trace st' = trace st ∧
     expired w st' = Ok (true, st')) ∧
  (∀ b c, weak_ptr_counter_ x = Some b → heap st !! b = Some c →
   ∃ st',
     WeakPtr_converting_copy w src st = Ok (tt, st') ∧
     weak st' = <[w := mkWeak (Some b)]> (weak st) ∧
     heap st' = <[b := mkCounter (shared_count_ c)
                         (uint32_incr (weak_count_ c)) (variant c)]> (heap st) ∧
     trace st' = trace st ∧
     weak_refs st' b = S (weak_refs st b) ∧
     expired w st' = expired src st').
Proof.
  intros Hx Hw.
  assert (w ≠ src) as Hne by congruence.
  assert (∀ b, weak_ptr_counter_ x = Some b →
            refs weak_ptr_counter_ (<[w:=mkWeak (Some b)]> (weak st)) b
            = S (refs weak_ptr_counter_ (weak st) b)) as Hrefs.
  { intros b Hb. rewrite refs_insert_None by done.
    unfold contributes. simpl. rewrite decide_True by done. lia. }
  split; [|split].
  - cpp_exec. eexists. split; [reflexivity|]. simpl.
    repeat split; try done.
    intros b Hb. unfold weak_refs. simpl. rewrite Hb. by apply Hrefs.
  - intros Hn. cpp_exec. eexists. split; [reflexivity|]. simpl.
    repeat split; cpp_exec; done.
  - intros b c Hb Hc. cpp_exec. eexists. split; [reflexivity|]. simpl.
    repeat split; cpp_exec; try done.
    unfold weak_refs. simpl. by apply Hrefs.
Qed.

End MemberFunctions.

(** ** Further properties of programs *)

Section Programs.
Context {T : Type} {Args : Type} (construct : Args → T).
Implicit Types (st : state T) (b h this other : nat) (c : BasePtrCounter T).

(** X13.  An operation on a [WeakPtr] that returns has changed no
    [SharedPtr], no strong count and no derived part of a block, and has
    added nothing to the trace but [Deallocate]: it neither destroys nor
    deletes an object. *)
Theorem weak_operations_leave_the_object_alone o st st' :
  weak_op o → exec (step construct o) st = Ok st' →
  shared st' = shared st ∧
  (∀ e, (∀ b, e ≠ Deallocate b) →
        occurrences e (trace st') = occurrences e (trace st)) ∧
  (∀ b c', heap st' !! b = Some c' →
     ∃ c, heap st !! b = Some c ∧
          shared_count_ c' = shared_count_ c ∧ variant c' = variant c).
Proof.
  intros Ho. destruct o; simpl; try done.
  all: cpp_cases; intros; simplify_eq; simpl.
  all: split; [done|]; split.
  all: try (intros ev Hev; occ_norm; repeat case_decide; subst; try lia;
            exfalso; eapply Hev; reflexivity).
  all: try done.
  all: intros b' c'; map_lookups; hyp_lookups; repeat case_decide;
       intros; simplify_eq; simpl; eauto.
Qed.




(** X16.  In a state that a program within capacity has reached without
    copying a [WeakPtr] member-wise, [expired()] on a [WeakPtr] with a
    block is true exactly when no live [SharedPtr] refers to that
    block. *)
Theorem expired_iff_no_strong_handle ops st w x b :
  Forall protocol_op ops →
  run construct ops init = Ok st →
  Forall capacity (trajectory construct ops init) →
  weak st !! w = Some x → weak_ptr_counter_ x = Some b →
  expired w st = Ok (bool_decide (strong_refs st b = 0%nat), st).
Proof.
  intros Hp Hr Hf Hx Hb.
  destruct (run_inv construct ops init st) as (Hi & Hw & Hc);
    [done|apply init_strong_inv|apply init_weak_inv|apply init_capacity|done..|].
  destruct (wi_live _ Hw w x b Hx Hb) as [c Hc'].
  cpp_exec. rewrite (si_count _ Hi b c Hc').
  do 2 f_equal. destruct (Z.eqb_spec (Z.of_nat (strong_refs st b)) 0).
  - rewrite bool_decide_eq_true_2; [done|lia].
  - rewrite bool_decide_eq_false_2; [done|lia].
Qed.

(** X17.  In a state that a program within capacity has reached without
    copying a [WeakPtr] member-wise, the weak count of a block in memory
    is the number of live [WeakPtr] handles that refer to it. *)
Theorem weak_count_counts_live_weak_handles ops st b c :
  Forall protocol_op ops →
  run construct ops init = Ok st →
  Forall capacity (trajectory construct ops init) →
  heap st !! b = Some c →
  get_weak_count b st = Ok (Z.of_nat (weak_refs st b), st).
Proof.
  intros Hp Hr Hf Hb.
  destruct (run_inv construct ops init st) as (Hi & Hw & Hc);
    [done|apply init_strong_inv|apply init_weak_inv|apply init_capacity|done..|].
  cpp_exec. by rewrite (wi_count _ Hw b c Hb).
Qed.

Lemma run_keeps_unowned ops st st' b :
  run construct ops st = Ok st' →
  (b < brk st)%nat → strong_refs st b = 0%nat →
  strong_refs st' b = 0%nat.
Proof.
  revert st. induction ops as [|o ops IH]; simpl; intros st Hr Hb Hz.
  - by simplify_eq.
  - destruct (exec (step construct o) st) as [st1|] eqn:E; [|done].
    destruct (step_refs construct o st st1 b E) as [_ _ Hg _ Hk].
    apply (IH st1); [done|lia|by apply Hg].
Qed.

(** X19.  Once no live [SharedPtr] refers to an allocated block, none
    does after any further operations of a program: the constructors from
    a raw pointer, by copy and by move, [MakeShared], the copy and move
    assignments, [reset], the destructor and the operations on [WeakPtr]
    give a block without owner no owner again.  The constructor from a
    block pointer, [SharedPtr(BasePtrCounter* ptr_counter)], is no
    operation of a program here, and it is the one that does: where the
    block is still in memory it makes a handle of it. *)
Theorem no_strong_handle_comes_back ops st st' b :
  run construct ops st = Ok st' →
  (b < brk st)%nat → strong_refs st b = 0%nat →
  strong_refs st' b = 0%nat ∧
  (∀ h c, heap st' !! b = Some c → shared st' !! h = None →
     ∃ st'', exec (SharedPtr_from_counter h (Some b)) st' = Ok st'' ∧
             strong_refs st'' b = 1%nat).
Proof.
  intros Hr Hb Hz.
  pose proof (run_keeps_unowned ops st st' b Hr Hb Hz) as Hz'.
  split; [done|].
  intros h c Hc Hh. cpp_exec. destruct (variant c); cpp_exec.
  all: eexists; split; [reflexivity|].
  all: unfold strong_refs in *; simpl.
  all: rewrite refs_insert_None by done.
  all: unfold contributes; simpl; rewrite decide_True by done; lia.
Qed.

(** X22.  A member-wise copy of a [WeakPtr] is not counted, so it can
    outlive its block.  Let [w0] be a [WeakPtr] of a block with strong
    count 0 and weak count 1.  After [WeakPtr<T> w1(w0)] and the
    destruction of [w0] the block has been deallocated while [w1] refers
    to it: [w1.expired()] and the destruction of [w1] use the released
    block. *)
Theorem uncounted_weak_copy_dangles st w0 w1 x b c :
  weak st !! w0 = Some x → weak_ptr_counter_ x = Some b →
  heap st !! b = Some c → shared_count_ c = 0 → weak_count_ c = 1 →
  weak st !! w1 = None →
  ∃ st',
    run construct [WeakCopy w1 w0; WeakDestruct w0] st = Ok st' ∧
    weak st' = delete w0 (<[w1 := mkWeak (Some b)]> (weak st)) ∧
    heap st' = delete b (heap st) ∧
    trace st' = trace st ++ [Deallocate b] ∧
    expired w1 st' = Fault DanglingCounter ∧
    exec (WeakPtr_destruct w1) st' = Fault DanglingCounter.
Proof.
  intros Hx Hb Hc Hs Hw Hn.
  assert (w1 ≠ w0) as Hne by congruence.
  destruct c as [sc wc v]; simpl in *; subst sc wc.
  assert (uint32_decr 1 = 0) as Hd by reflexivity.
  simpl. cpp_exec. rewrite Hd. cpp_exec.
  eexists. split; [reflexivity|]. simpl.
  rewrite ?delete_insert_eq.
  split; [done|]. split; [done|]. split; [done|].
  split; cpp_exec; done.
Qed.

(** X23.  What becomes of the two blocks of [MakeShared].  When the
    result of [MakeShared<T>(args...)] is destroyed, being the only handle,
    [destroy] runs on the direct block: it deletes the combined block as
    the managed object, and the direct block is deallocated.  On the
    combined block neither [destroy] nor [deallocate] runs. *)
Theorem MakeShared_result_release st h args :
  shared st !! h = None →
  ∃ st1 st2,
    MakeShared construct h args st = Ok (tt, st1) ∧
    exec (SharedPtr_destruct h) st1 = Ok st2 ∧
    trace st2 = trace st ++
      [Allocate (brk st); Allocate (S (brk st)); Destroy (S (brk st));
       Delete (CounterObject (brk st)); Deallocate (S (brk st))] ∧
    heap st2 !! S (brk st) = None ∧
    shared st2 = delete h (shared st) ∧
    weak st2 = weak st.
Proof.
  intros Hh.
  destruct (MakeShared_spec construct st h args Hh)
    as (st1 & H1 & H2 & H3 & H4 & H5 & H6 & _ & _).
  exists st1. rewrite H1.
  destruct st1 as [hp bk sh wk tr]; simpl in *; subst.
  assert (uint32_decr 1 = 0) as Hd by reflexivity.
  cpp_exec. rewrite Hd. cpp_exec.
  eexists. split; [reflexivity|]. split; [reflexivity|]. simpl.
  rewrite <-!app_assoc. simpl.
  rewrite !delete_insert_eq, lookup_delete_eq.
  done.
Qed.

Lemma destroy_first_true b tr : destroy_first b true tr = true.
Proof. induction tr as [|e tr IH]; simpl; [done|]. by case_decide. Qed.

Lemma destroy_first_app b d tr1 tr2 :
  destroy_first b d (tr1 ++ tr2) =
  destroy_first b d tr1 &&
  destroy_first b (d || bool_decide (0 < occurrences (Destroy b) tr1)%nat) tr2.
Proof.
  revert d. induction tr1 as [|e tr1 IH]; intros d; simpl.
  - rewrite ?bool_decide_eq_false_2 by lia. by rewrite orb_false_r.
  - destruct (decide (e = Deallocate b)) as [->|Hne].
    + rewrite decide_False by done. simpl. rewrite IH.
      destruct d; simpl; [|done]. by rewrite !destroy_first_true.
    + rewrite IH. f_equal. destruct (decide (e = Destroy b)) as [->|Hne'].
      * rewrite ?decide_True by done. simpl.
        rewrite ?bool_decide_eq_true_2 by (done || lia).
        by rewrite ?orb_true_r.
      * rewrite ?bool_decide_eq_false_2 by done. rewrite ?orb_false_r.
        rewrite ?decide_False by done. simpl.
        do 2 f_equal.
Qed.

Lemma destroy_first_spec b d tr :
  destroy_first b d tr = true →
  ∀ tr1 tr2, tr = tr1 ++ Deallocate b :: tr2 → d = true ∨ In (Destroy b) tr1.
Proof.
  revert d. induction tr as [|e tr IH]; intros d Hd tr1 tr2 Heq.
  - by destruct tr1.
  - simpl in Hd. destruct tr1 as [|e1 tr1]; simpl in Heq; simplify_eq.
    + rewrite decide_True in Hd by done. left. by destruct d.
    + destruct (decide (e1 = Deallocate b)) as [->|Hne].
      * left. by destruct d.
      * destruct (IH _ Hd tr1 tr2 eq_refl) as [Ht|Hin]; [|right; by right].
        apply orb_true_iff in Ht as [->|Ht]; [by left|].
        apply bool_decide_eq_true in Ht as ->. right. by left.
Qed.

Lemma basic_step_destroy_first o st st' b :
  basic_op o → strong_inv st → strong_capacity st →
  exec (step construct o) st = Ok st' →
  destroy_first b false (trace st) = true →
  destroy_first b false (trace st') = true.
Proof.
  intros Hb Hi Hc. destruct o; simpl; try done.
  all: cpp_unfold; try name_fresh.
  all: cpp_cases; intros; simplify_eq; simpl; try done.
  all: rewrite <-?app_assoc; simpl.
  all: rewrite destroy_first_app.
  all: match goal with H : destroy_first _ _ _ = true |- _ => rewrite H end; simpl.
  all: repeat case_decide; simplify_eq; simpl; rewrite ?orb_true_r; simpl; try done.
  all: rewrite ?bool_decide_eq_true_2 by done; simpl; rewrite ?orb_true_r; simpl; try done.
  all: exfalso; hyp_lookups; repeat case_decide; simplify_eq; simpl in *.
  all: saturate_direct Hi.
  all: match goal with
       | Hn : ¬ (0 < occurrences (Destroy ?b) (trace _))%nat,
         Hh : heap _ !! ?b = Some ?c |- _ =>
           apply Hn; rewrite (si_destroy _ Hi b);
           pose proof (si_count _ Hi b c Hh);
           pose proof (si_brk _ Hi b (ex_intro _ c Hh))
       end.
  all: rewrite decide_True; [lia|]; split; [done|]; split; [simpl in *; lia|done].
Qed.

Lemma step_destroy_first o st st' b :
  strong_inv st → strong_capacity st →
  exec (step construct o) st = Ok st' →
  destroy_first b false (trace st) = true →
  destroy_first b false (trace st') = true.
Proof.
  intros Hi Hc Hex Hd.
  destruct (basic_or_desugared o) as [Hb|[Hn|(h & o' & Hd' & Hb)]].
  - by eapply basic_step_destroy_first.
  - rewrite step_desugar, Hn in Hex. simpl in Hex. by simplify_eq.
  - rewrite step_desugar, Hd' in Hex. simpl in Hex.
    destruct (exec (SharedPtr_destruct h) st) as [st1|] eqn:E1; [|done].
    destruct (exec (step construct o') st1) as [st2|] eqn:E2; [|done].
    simplify_eq.
    pose proof (SharedPtr_destruct_capacity _ _ _ E1) as [Hc1 _].
    eapply (basic_step_destroy_first o' st1); eauto.
    + eapply (basic_step_strong_inv construct (SharedDestruct h) st); eauto. done.
    + eapply (basic_step_destroy_first (SharedDestruct h) st); eauto. done.
Qed.

(** X20.  In the trace of a program during which no block has as many
    live [SharedPtr] handles as a [uint32_t] has values, every
    [deallocate] of a block comes after a [destroy] of that block. *)
Theorem deallocate_never_precedes_destroy ops st :
  run construct ops init = Ok st →
  Forall strong_capacity (trajectory construct ops init) →
  ∀ b tr1 tr2, trace st = tr1 ++ Deallocate b :: tr2 → In (Destroy b) tr1.
Proof.
  intros Hr Hf b.
  assert (∀ st0, strong_inv st0 → strong_capacity st0 →
            destroy_first b false (trace st0) = true →
            run construct ops st0 = Ok st →
            Forall strong_capacity (trajectory construct ops st0) →
            destroy_first b false (trace st) = true) as Hgen.
  { clear Hr Hf. induction ops as [|o ops IH]; simpl; intros st0 Hi Hc Hd Hr Hf.
    - by simplify_eq.
    - destruct (exec (step construct o) st0) as [st1|] eqn:E; [|done].
      apply Forall_cons in Hf as [Hc1 Hf].
      apply (IH st1); try done.
      + by eapply step_strong_inv.
      + by eapply step_destroy_first. }
  intros tr1 tr2 Heq.
  destruct (destroy_first_spec b false (trace st)) with (tr1 := tr1) (tr2 := tr2)
    as [?|?]; try done.
  apply (Hgen init); try done.
  apply init_strong_inv.
Qed.

Lemma basic_step_ptr_consistent o st st' :
  basic_op o → strong_inv st → strong_capacity st → ptr_consistent st →
  exec (step construct o) st = Ok st' → ptr_consistent st'.
Proof.
  intros Hb Hi Hc Hp. destruct o; simpl; try done.
  all: cpp_unfold; try name_fresh.
  all: cpp_cases; intros; simplify_eq.
  all: try (pose proof (strong_inv_fresh_block _ Hi) as [? ?]).
  all: intros h' s' b' c'; simpl.
  all: map_lookups; repeat case_decide; intros; simplify_eq; simpl in *.
  all: hyp_lookups; repeat case_decide; simplify_eq; simpl in *.
  all: repeat match goal with
       | Hs : shared _ !! ?h = Some ?s, Hpc : ptr_counter_ ?s = Some ?b,
         Hh : heap _ !! ?b = Some ?c |- _ =>
           lazymatch goal with
           | _ : _ = block_ptr b c |- _ => fail
           | _ => pose proof (Hp h s b c Hs Hpc Hh)
           end
       end.
  all: try (saturate_strong Hi Hc; saturate_refs_pos; saturate_refs_two;
            unfold strong_refs in *;
            try rewrite uint32_decr_small in * by lia; lia).
  all: unfold block_ptr in *; simpl in *.
  all: repeat match goal with
       | Hv : variant ?c = _ |- _ => rewrite Hv in *
       end.
  all: try congruence.
  all: try done.
Qed.

Lemma step_ptr_consistent o st st' :
  strong_inv st → strong_capacity st → ptr_consistent st →
  exec (step construct o) st = Ok st' → ptr_consistent st'.
Proof.
  intros Hi Hc Hp Hex.
  destruct (basic_or_desugared o) as [Hb|[Hn|(h & o' & Hd & Hb)]].
  - by eapply basic_step_ptr_consistent.
  - rewrite step_desugar, Hn in Hex. simpl in Hex. by simplify_eq.
  - rewrite step_desugar, Hd in Hex. simpl in Hex.
    destruct (exec (SharedPtr_destruct h) st) as [st1|] eqn:E1; [|done].
    destruct (exec (step construct o') st1) as [st2|] eqn:E2; [|done].
    simplify_eq.
    pose proof (SharedPtr_destruct_capacity _ _ _ E1) as [Hc1 _].
    eapply (basic_step_ptr_consistent o' st1); eauto.
    + eapply (basic_step_strong_inv construct (SharedDestruct h) st); eauto. done.
    + eapply (basic_step_ptr_consistent (SharedDestruct h) st); eauto. done.
Qed.

Lemma run_ptr_consistent ops st :
  run construct ops init = Ok st →
  Forall strong_capacity (trajectory construct ops init) →
  strong_inv st ∧ ptr_consistent st.
Proof.
  assert (∀ st0, strong_inv st0 → strong_capacity st0 → ptr_consistent st0 →
            run construct ops st0 = Ok st →
            Forall strong_capacity (trajectory construct ops st0) →
            strong_inv st ∧ ptr_consistent st) as Hgen.
  { induction ops as [|o ops IH]; simpl; intros st0 Hi Hc Hp Hr Hf.
    - by simplify_eq.
    - destruct (exec (step construct o) st0) as [st1|] eqn:E; [|done].
      apply Forall_cons in Hf as [Hc1 Hf].
      apply (IH st1); try done.
      + by eapply step_strong_inv.
      + by eapply step_ptr_consistent. }
  intros Hr Hf.
  apply (Hgen init);
    [apply init_strong_inv|apply (proj1 (@init_capacity T))| |done..].
  intros h s b c Hs. simpl in Hs. by rewrite lookup_empty in Hs.
Qed.

(** X21.  In a state that a program within capacity has reached, two live
    [SharedPtr] handles of one block return the same pointer from
    [get()], the one that [get_ptr()] of the block returns, and neither
    call touches a released block. *)
Theorem handles_of_a_block_agree_on_get ops st h1 h2 s1 s2 b :
  run construct ops init = Ok st →
  Forall strong_capacity (trajectory construct ops init) →
  shared st !! h1 = Some s1 → ptr_counter_ s1 = Some b →
  shared st !! h2 = Some s2 → ptr_counter_ s2 = Some b →
  ∃ p, SharedPtr_get h1 st = Ok (p, st) ∧ SharedPtr_get h2 st = Ok (p, st) ∧
       get_ptr b st = Ok (p, st).
Proof.
  intros Hr Hf Hs1 Hb1 Hs2 Hb2.
  destruct (run_ptr_consistent ops st Hr Hf) as [Hi Hp].
  destruct (si_live _ Hi h1 s1 b Hs1 Hb1) as [c Hc].
  pose proof (Hp h1 s1 b c Hs1 Hb1 Hc) as E1.
  pose proof (Hp h2 s2 b c Hs2 Hb2 Hc) as E2.
  exists (block_ptr b c). unfold block_ptr in *.
  destruct (variant c) as [[o|]|v] eqn:Hv; repeat split; cpp_exec; done.
Qed.

End Programs.

(** ** The operations on concrete programs *)

Section Instances.

Lemma small_stores_capacity {T} (st : state T) :
  small_stores st = true → capacity st.
Proof.
  unfold small_stores. intros [H1 H2]%andb_prop.
  apply Z.ltb_lt in H1, H2. split; intros b.
  - pose proof (refs_le_size ptr_counter_ (shared st) b). unfold strong_refs. lia.
  - pose proof (refs_le_size weak_ptr_counter_ (weak st) b). unfold weak_refs. lia.
Qed.

Lemma small_trajectory_capacity {T} (l : list (state T)) :
  forallb small_stores l = true → Forall capacity l.
Proof.
  induction l as [|st l IH]; simpl; [constructor|].
  intros [H1 H2]%andb_prop. constructor; [by apply small_stores_capacity|by apply IH].
Qed.

Lemma small_trajectory_strong_capacity {T} (l : list (state T)) :
  forallb small_stores l = true → Forall strong_capacity l.
Proof.
  intros H. eapply Forall_impl; [by apply small_trajectory_capacity|].
  by intros st [? _].
Qed.

Lemma final_state_run ops st : run id ops init = Ok st → final_state ops = st.
Proof. unfold final_state. by intros ->. Qed.

(** C1, as amended, on the program [sharing]. *)
Lemma use_count_counts_live_handles_witness :
  run id sharing init = Ok (final_state sharing) ∧
  Forall strong_capacity (trajectory id sharing init) ∧
  use_count 2 (final_state sharing) = Ok (2, final_state sharing).
Proof.
  assert (run id sharing init = Ok (final_state sharing)) as Hr
    by (vm_compute; reflexivity).
  assert (Forall strong_capacity (trajectory id sharing init)) as Hc
    by (apply small_trajectory_strong_capacity; vm_compute; reflexivity).
  split; [exact Hr|]. split; [exact Hc|].
  rewrite (use_count_counts_live_handles id sharing (final_state sharing) Hr Hc
             2%nat (mkShared (Some 0%nat) some_object) 0%nat);
    vm_compute; reflexivity.
Defined.

(** C2, as amended, on the program [expiring]. *)
Lemma destroy_runs_once_at_last_release_witness :
  run id expiring init = Ok (final_state expiring) ∧
  Forall strong_capacity (trajectory id expiring init) ∧
  occurrences (Destroy 0) (trace (final_state expiring)) = 1%nat.
Proof.
  assert (run id expiring init = Ok (final_state expiring)) as Hr
    by (vm_compute; reflexivity).
  assert (Forall strong_capacity (trajectory id expiring init)) as Hc
    by (apply small_trajectory_strong_capacity; vm_compute; reflexivity).
  split; [exact Hr|]. split; [exact Hc|].
  rewrite (proj1 (destroy_runs_once_at_last_release id expiring
                    (final_state expiring) Hr Hc) 0%nat);
    vm_compute; [reflexivity|lia|reflexivity].
Defined.

(** C2, as stated, fails twice over.  After [2^32] handles of block 0 have
    been made and all of them destroyed, [destroy] has not run on block 0.
    And on the block that [expiring] leaves, on which [destroy] has run,
    [SharedPtr(BasePtrCounter* ptr_counter)] makes a handle with
    [use_count()] 1 whose destructor runs [destroy] a second time. *)
Lemma destroy_runs_never_or_twice :
  (∃ st : state Z,
     run id (many_copies uint32_last ++ destroy_all (S uint32_last)) init = Ok st ∧
     shared st = ∅ ∧ weak st = ∅ ∧
     occurrences (Allocate 0) (trace st) = 1%nat ∧
     occurrences (Destroy 0) (trace st) = 0%nat) ∧
  (∃ st1 st2 : state Z,
     occurrences (Destroy 0) (trace (final_state expiring)) = 1%nat ∧
     exec (SharedPtr_from_counter 5 (Some 0%nat)) (final_state expiring) = Ok st1 ∧
     use_count 5 st1 = Ok (1, st1) ∧
     exec (SharedPtr_destruct 5) st1 = Ok st2 ∧
     occurrences (Destroy 0) (trace st2) = 2%nat).
Proof.
  split; [exact destroy_never_runs_after_wrap|].
  eexists _, _. split; [vm_compute; reflexivity|].
  split; [vm_compute; reflexivity|].
  split; [vm_compute; reflexivity|].
  split; vm_compute; reflexivity.
Qed.


(** C4, on the code.  On a handle whose object is gone, [expired()] is
    true and [lock()] evaluates to the [std::runtime_error] operand, not to
    an empty [SharedPtr]; on a live handle [lock()] evaluates to the block
    pointer, and the strong count is what it was. *)
Theorem lock_of_expired_handle_is_runtime_error :
  expired 0 (final_state expiring) = Ok (true, final_state expiring) ∧
  lock 0 (final_state expiring) = Ok (RuntimeError, final_state expiring) ∧
  lock 0 (final_state sharing) = Ok (CounterPointer (Some 0%nat), final_state sharing) ∧
  use_count 0 (final_state sharing) = Ok (2, final_state sharing).
Proof.
  split; [vm_compute; reflexivity|].
  split; [vm_compute; reflexivity|].
  split; vm_compute; reflexivity.
Qed.

(** C5, on the code.  With [w1] on block 0 and [w2] on block 1, [w1 = w2]
    runs the member-wise copy assignment: [w1] refers to block 1
    afterwards, but no block and no count has changed.  Block 0 keeps a
    weak count of 1 with no weak handle left, and block 1 a weak count of
    1 with two weak handles. *)
Theorem weak_copy_assignment_counts_nothing :
  ∃ st st' : state Z,
    run id two_observed_blocks init = Ok st ∧
    weak st !! 0%nat = Some (mkWeak (Some 0%nat)) ∧
    weak st !! 1%nat = Some (mkWeak (Some 1%nat)) ∧
    exec (step id (WeakAssign 0%nat 1%nat)) st = Ok st' ∧
    weak st' !! 0%nat = Some (mkWeak (Some 1%nat)) ∧
    heap st' = heap st ∧ trace st' = trace st ∧
    weak_count_ <$> heap st' !! 0%nat = Some 1 ∧ weak_refs st' 0 = 0%nat ∧
    weak_count_ <$> heap st' !! 1%nat = Some 1 ∧ weak_refs st' 1 = 2%nat.
Proof.
  exists (final_state two_observed_blocks).
  eexists. split; [vm_compute; reflexivity|].
  split; [vm_compute; reflexivity|].
  split; [vm_compute; reflexivity|].
  split; [vm_compute; reflexivity|].
  split; [vm_compute; reflexivity|].
  split; [vm_compute; reflexivity|].
  split; [vm_compute; reflexivity|].
  split; [vm_compute; reflexivity|].
  split; [vm_compute; reflexivity|].
  split; vm_compute; reflexivity.
Qed.

(** C6, on the code.  [MakeShared<T>(42)] into a fresh variable makes two
    allocations: the combined block at 0, whose counts stay 0, and a
    direct block at 1 that points to it and carries the strong count.
    [use_count()] on the result is 1, and [get()] is the address of the
    combined block, which is not the address of the [T] inside it. *)
Theorem MakeShared_allocates_twice :
  ∃ st' : state Z,
    MakeShared id 7 42 init = Ok (tt, st') ∧
    trace st' = [Allocate 0; Allocate 1] ∧
    heap st' !! 0%nat = Some (mkCounter 0 0 (NonDirectPtrCounter 42)) ∧
    heap st' !! 1%nat
      = Some (mkCounter 1 0 (DirectPtrCounter (Some (CounterObject 0)))) ∧
    shared st' !! 7%nat = Some (mkShared (Some 1%nat) (Some (CounterObject 0))) ∧
    use_count 7 st' = Ok (1, st') ∧
    SharedPtr_get 7 st' = Ok (Some (CounterObject 0), st') ∧
    get_ptr 0 st' = Ok (Some (InlineObject 0), st') ∧
    object_at st' (Some (InlineObject 0)) = Some 42 ∧
    object_at st' (Some (CounterObject 0)) = None.
Proof.
  destruct (MakeShared_spec id (@init Z) 7 42 eq_refl)
    as (st' & H1 & H2 & H3 & H4 & H5 & H6 & H7 & H8).
  exists st'. split; [exact H1|]. split; [exact H2|].
  split; [rewrite H3; reflexivity|]. split; [rewrite H3; reflexivity|].
  split; [rewrite H5; reflexivity|]. split; [exact H7|]. split; [exact H8|].
  unfold get_ptr, bind, read_counter, ret, object_at. rewrite H3.
  split; [reflexivity|]. split; reflexivity.
Qed.

(** C9 on the program [observed]: its [SharedPtr] and its [WeakPtr] are
    assigned to themselves. *)
Lemma self_assignment_is_noop_witness :
  is_Some (weak (final_state observed) !! 0%nat) ∧
  SharedPtr_assign 0 0 (final_state observed) = Ok (tt, final_state observed) ∧
  WeakPtr_implicit_assign 0 0 (final_state observed) = Ok (tt, final_state observed) ∧
  use_count 0 (final_state observed) = Ok (1, final_state observed) ∧
  expired 0 (final_state observed) = Ok (false, final_state observed).
Proof.
  assert (is_Some (weak (final_state observed) !! 0%nat)) as Hw
    by (vm_compute; eauto).
  split; [exact Hw|].
  destruct (self_assignment_is_noop (final_state observed) 0%nat 0%nat) as [H1 H2].
  split; [exact H1|]. split; [exact (H2 Hw)|].
  split; vm_compute; reflexivity.
Defined.

(** C7, on the code.  Constructing a [WeakPtr] from a default-constructed
    [SharedPtr] calls [increment_weak_count] through a null pointer. *)
Theorem weak_from_empty_shared_dereferences_null :
  ∃ st : state Z,
    run id [SharedDefault 0%nat] init = Ok st ∧
    get_ptr_counter 0 st = Ok (None, st) ∧
    WeakPtr_from_shared 0 0 st = Fault NullDereference.
Proof.
  exists (final_state [SharedDefault 0%nat]).
  split; [vm_compute; reflexivity|].
  split; vm_compute; reflexivity.
Qed.

(** C8, as stated, fails: on a block whose strong count is 0,
    [decrement_shared_count] returns normally and leaves a count of
    [4294967295]. *)
Lemma decrement_at_zero_wraps :
  shared_count_ <$> heap (final_state expiring) !! 0%nat = Some 0 ∧
  ∃ st',
    exec (decrement_shared_count 0) (final_state expiring) = Ok st' ∧
    shared_count_ <$> heap st' !! 0%nat = Some 4294967295.
Proof.
  split; [vm_compute; reflexivity|].
  eexists. split; vm_compute; reflexivity.
Qed.

(** C8, as amended, on the block left by [uncounted], whose weak count
    is 0 while weak handle 1 refers to it: [~WeakPtr] of that handle
    leaves the state as it is, and [decrement_weak_count] wraps. *)
Lemma zero_counts_are_skipped_not_trapped_witness :
  heap (final_state uncounted) !! 0%nat
    = Some (mkCounter 1 0 (DirectPtrCounter some_object)) ∧
  weak (final_state uncounted) !! 1%nat = Some (mkWeak (Some 0%nat)) ∧
  WeakPtr_dtor 1 (final_state uncounted) = Ok (tt, final_state uncounted) ∧
  decrement_weak_count 0 (final_state uncounted) =
    Ok (tt, set_heap (insert 0%nat (mkCounter 1 (uint32_modulus - 1)
                                              (DirectPtrCounter some_object)))
                     (final_state uncounted)).
Proof.
  assert (heap (final_state uncounted) !! 0%nat
          = Some (mkCounter 1 0 (DirectPtrCounter some_object))) as Hb
    by (vm_compute; reflexivity).
  assert (weak (final_state uncounted) !! 1%nat = Some (mkWeak (Some 0%nat))) as Hw
    by (vm_compute; reflexivity).
  split; [exact Hb|]. split; [exact Hw|].
  destruct (proj2 (zero_counts_are_skipped_not_trapped
                     (final_state uncounted) 0%nat _ Hb) eq_refl) as [H1 H2].
  split; [exact (H2 1%nat _ Hw eq_refl)|exact H1].
Defined.

(** C10, as amended, on a default-constructed handle. *)
Lemma copy_of_empty_handle_is_empty_witness :
  shared (final_state [SharedDefault 0%nat]) !! 0%nat = Some (mkShared None None) ∧
  shared (final_state [SharedDefault 0%nat]) !! 1%nat = None ∧
  ∃ st',
    SharedPtr_copy 1 0 (final_state [SharedDefault 0%nat]) = Ok (tt, st') ∧
    SharedPtr_get 1 st' = Ok (None, st') ∧
    use_count 1 st' = Ok (0, st').
Proof.
  assert (shared (final_state [SharedDefault 0%nat]) !! 0%nat
          = Some (mkShared None None)) as Hs by (vm_compute; reflexivity).
  assert (shared (final_state [SharedDefault 0%nat]) !! 1%nat = None) as Hh
    by (vm_compute; reflexivity).
  split; [exact Hs|]. split; [exact Hh|].
  destruct (copy_of_empty_handle_is_empty id (final_state [SharedDefault 0%nat])
              0%nat (mkShared None None) 1%nat Hs eq_refl Hh)
    as (st' & H1 & _ & _ & _ & _ & _ & H2 & H3 & _).
  exists st'. split; [exact H1|]. split; [exact H2|exact H3].
Defined.

(** C10, as stated, fails: a handle made from a raw pointer that gave up
    its block by [reset_ptr_counter()] has no block, and [use_count()] on
    it is 0; on its copy [get()] returns the raw pointer and not the null
    pointer. *)
Lemma copy_of_blockless_handle_keeps_pointer :
  exec (reset_ptr_counter 0) (final_state [SharedFromRaw 0%nat some_object])
    = Ok blockless ∧
  get_ptr_counter 0 blockless = Ok (None, blockless) ∧
  use_count 0 blockless = Ok (0, blockless) ∧
  ∃ st',
    SharedPtr_copy 1 0 blockless = Ok (tt, st') ∧
    get_ptr_counter 1 st' = Ok (None, st') ∧
    use_count 1 st' = Ok (0, st') ∧
    SharedPtr_get 1 st' = Ok (Some (HeapObject 100), st').
Proof.
  split; [vm_compute; reflexivity|].
  split; [vm_compute; reflexivity|].
  split; [vm_compute; reflexivity|].
  eexists. split; [vm_compute; reflexivity|].
  split; [vm_compute; reflexivity|].
  split; vm_compute; reflexivity.
Qed.

End Instances.

(** ** The further properties on concrete programs *)

Section FurtherInstances.

(** X1 on the program [sharing]: handle 0 is moved into a new handle. *)
Lemma move_construction_transfers_ownership_witness :
  shared (final_state sharing) !! 0%nat = Some (mkShared (Some 0%nat) some_object) ∧
  shared (final_state sharing) !! 5%nat = None ∧
  SharedPtr_get 0 (final_state sharing) = Ok (some_object, final_state sharing) ∧
  ∃ st',
    SharedPtr_move 5 0 (final_state sharing) = Ok (tt, st') ∧
    use_count 0 st' = Ok (0, st') ∧
    SharedPtr_get 0 st' = Ok (None, st').
Proof.
  assert (shared (final_state sharing) !! 0%nat
          = Some (mkShared (Some 0%nat) some_object)) as H1
    by (vm_compute; reflexivity).
  assert (shared (final_state sharing) !! 5%nat = None) as H2
    by (vm_compute; reflexivity).
  assert (SharedPtr_get 0 (final_state sharing)
          = Ok (some_object, final_state sharing)) as H3
    by (vm_compute; reflexivity).
  split; [exact H1|]. split; [exact H2|]. split; [exact H3|].
  destruct (move_construction_transfers_ownership _ _ _ _ _ H1 H2 H3)
    as (st' & E1 & _ & _ & _ & _ & _ & E2 & E3).
  exists st'. split; [exact E1|]. split; [exact E2|exact E3].
Defined.

(** X3 on the program [sharing]: handle 2 is reset. *)
Lemma reset_empties_the_handle_witness :
  exec (SharedPtr_reset 2) (final_state sharing)
    = Ok (final_state (sharing ++ [SharedReset 2%nat])) ∧
  use_count 2 (final_state (sharing ++ [SharedReset 2%nat]))
    = Ok (0, final_state (sharing ++ [SharedReset 2%nat])) ∧
  exec (SharedPtr_reset 2) (final_state (sharing ++ [SharedReset 2%nat]))
    = Ok (final_state (sharing ++ [SharedReset 2%nat])).
Proof.
  assert (exec (SharedPtr_reset 2) (final_state sharing)
          = Ok (final_state (sharing ++ [SharedReset 2%nat]))) as H1
    by (vm_compute; reflexivity).
  split; [exact H1|].
  destruct (reset_empties_the_handle _ _ _ H1) as (_ & _ & E1 & _ & E2).
  split; [exact E1|exact E2].
Defined.

(** X6 on the program [sharing]: the empty handle 1 is assigned from
    handle 0. *)
Lemma converting_assignment_with_unrelated_class_witness :
  (1 ≠ 0)%nat ∧
  shared (final_state sharing) !! 1%nat = Some (mkShared None None) ∧
  SharedPtr_get 0 (final_state sharing) = Ok (some_object, final_state sharing) ∧
  ∃ st',
    SharedPtr_converting_assign (λ _, None) 1 0 (final_state sharing) = Ok (tt, st') ∧
    use_count 1 st' = Ok (0, st') ∧
    SharedPtr_get 1 st' = Ok (some_object, st').
Proof.
  assert (1 ≠ 0)%nat as H0 by lia.
  assert (shared (final_state sharing) !! 1%nat = Some (mkShared None None)) as H1
    by (vm_compute; reflexivity).
  assert (SharedPtr_get 0 (final_state sharing)
          = Ok (some_object, final_state sharing)) as H3
    by (vm_compute; reflexivity).
  split; [exact H0|]. split; [exact H1|]. split; [exact H3|].
  destruct (converting_assignment_with_unrelated_class _ _ _ _ _ H0 H1 eq_refl H3)
    as (st' & E1 & _ & _ & _ & _ & E2 & E3).
  exists st'. split; [exact E1|]. split; [exact E2|exact E3].
Defined.

(** X7 on the block of the program [observed]. *)
Lemma second_destroy_deletes_nothing_witness :
  heap (final_state observed) !! 0%nat
    = Some (mkCounter 1 1 (DirectPtrCounter some_object)) ∧
  ∃ st1 st2,
    exec (destroy 0) (final_state observed) = Ok st1 ∧
    exec (destroy 0) st1 = Ok st2 ∧
    trace st2 = trace st1 ++ [Destroy 0] ∧
    heap st2 = heap st1.
Proof.
  assert (heap (final_state observed) !! 0%nat
          = Some (mkCounter 1 1 (DirectPtrCounter some_object))) as H1
    by (vm_compute; reflexivity).
  split; [exact H1|].
  destruct (second_destroy_deletes_nothing _ _ _ _ H1 eq_refl)
    as (st1 & st2 & E1 & E2 & _ & _ & E3 & E4).
  exists st1, st2. split; [exact E1|]. split; [exact E2|].
  split; [exact E3|exact E4].
Defined.

(** X8 on the initial state, with a null pointer. *)
Lemma raw_pointer_construction_owns_a_new_block_witness :
  shared (@init Z) !! 0%nat = None ∧
  ∃ st',
    SharedPtr_from_raw 0 None (@init Z) = Ok (tt, st') ∧
    use_count 0 st' = Ok (1, st') ∧
    SharedPtr_get 0 st' = Ok (None, st').
Proof.
  split; [reflexivity|].
  destruct (raw_pointer_construction_owns_a_new_block (@init Z) 0 None eq_refl)
    as (st' & E1 & _ & _ & _ & _ & _ & E2 & E3).
  exists st'. split; [exact E1|]. split; [exact E2|exact E3].
Defined.

(** X9 on the initial state. *)
Lemma block_pointer_construction_shares_or_stays_empty_witness :
  shared (@init Z) !! 0%nat = None ∧
  ∃ st',
    SharedPtr_from_counter 0 None (@init Z) = Ok (tt, st') ∧
    use_count 0 st' = Ok (0, st').
Proof.
  split; [reflexivity|].
  destruct (block_pointer_construction_shares_or_stays_empty (@init Z) 0 eq_refl)
    as [(st' & E1 & _ & _ & _ & E2) _].
  exists st'. split; [exact E1|exact E2].
Defined.

(** X10 on the program [sharing]: a second weak handle observes handle 0. *)
Lemma observing_adds_one_weak_reference_witness :
  weak (final_state sharing) !! 1%nat = None ∧
  shared (final_state sharing) !! 0%nat = Some (mkShared (Some 0%nat) some_object) ∧
  heap (final_state sharing) !! 0%nat
    = Some (mkCounter 2 1 (DirectPtrCounter some_object)) ∧
  ∃ st',
    WeakPtr_from_shared 1 0 (final_state sharing) = Ok (tt, st') ∧
    use_count 0 st' = Ok (2, st') ∧
    expired 1 st' = Ok (false, st').
Proof.
  assert (weak (final_state sharing) !! 1%nat = None) as H1
    by (vm_compute; reflexivity).
  assert (shared (final_state sharing) !! 0%nat
          = Some (mkShared (Some 0%nat) some_object)) as H2
    by (vm_compute; reflexivity).
  assert (heap (final_state sharing) !! 0%nat
          = Some (mkCounter 2 1 (DirectPtrCounter some_object))) as H3
    by (vm_compute; reflexivity).
  split; [exact H1|]. split; [exact H2|]. split; [exact H3|].
  destruct (observing_adds_one_weak_reference _ _ _ _ _ _ H1 H2 eq_refl H3)
    as (st' & E1 & _ & _ & _ & _ & E2 & E3).
  exists st'. split; [exact E1|]. split; [exact E2|exact E3].
Defined.

(** X11 on the program [observed]: weak handle 0 is moved into a new one. *)
Lemma weak_move_construction_transfers_observation_witness :
  weak (final_state observed) !! 0%nat = Some (mkWeak (Some 0%nat)) ∧
  weak (final_state observed) !! 1%nat = None ∧
  ∃ st',
    WeakPtr_move 1 0 (final_state observed) = Ok (tt, st') ∧
    weak_refs st' 0 = weak_refs (final_state observed) 0 ∧
    expired 0 st' = Ok (true, st').
Proof.
  assert (weak (final_state observed) !! 0%nat = Some (mkWeak (Some 0%nat))) as H1
    by (vm_compute; reflexivity).
  assert (weak (final_state observed) !! 1%nat = None) as H2
    by (vm_compute; reflexivity).
  split; [exact H1|]. split; [exact H2|].
  destruct (weak_move_construction_transfers_observation _ _ _ _ H1 H2)
    as (st' & E1 & _ & _ & _ & _ & E2 & E3).
  exists st'. split; [exact E1|]. split; [exact (E2 0%nat)|exact E3].
Defined.

(** X12 on the program [observed]: weak handle 0 is copied, and block 0
    has two weak handles and a weak count of 1. *)
Lemma weak_copy_counts_only_when_converting_witness :
  weak (final_state observed) !! 0%nat = Some (mkWeak (Some 0%nat)) ∧
  weak (final_state observed) !! 1%nat = None ∧
  ∃ st',
    WeakPtr_implicit_copy 1 0 (final_state observed) = Ok (tt, st') ∧
    heap st' = heap (final_state observed) ∧
    weak_refs st' 0 = S (weak_refs (final_state observed) 0).
Proof.
  assert (weak (final_state observed) !! 0%nat = Some (mkWeak (Some 0%nat))) as H1
    by (vm_compute; reflexivity).
  assert (weak (final_state observed) !! 1%nat = None) as H2
    by (vm_compute; reflexivity).
  split; [exact H1|]. split; [exact H2|].
  destruct (proj1 (weak_copy_counts_only_when_converting _ _ _ _ H1 H2))
    as (st' & E1 & _ & E2 & _ & _ & E3).
  exists st'. split; [exact E1|]. split; [exact E2|exact (E3 0%nat eq_refl)].
Defined.

(** X13 on the program [observed]: the weak handle is destroyed. *)
Lemma weak_operations_leave_the_object_alone_witness :
  weak_op (WeakDestruct (Args:=Z) 0) ∧
  exec (step id (WeakDestruct 0)) (final_state observed)
    = Ok (final_state (observed ++ [WeakDestruct 0%nat])) ∧
  shared (final_state (observed ++ [WeakDestruct 0%nat]))
    = shared (final_state observed).
Proof.
  assert (exec (step id (WeakDestruct 0)) (final_state observed)
          = Ok (final_state (observed ++ [WeakDestruct 0%nat]))) as H1
    by (vm_compute; reflexivity).
  split; [exact I|]. split; [exact H1|].
  exact (proj1 (weak_operations_leave_the_object_alone id (WeakDestruct 0) _ _ I H1)).
Defined.



(** X16 on the program [expiring]: the weak handle has expired. *)
Lemma expired_iff_no_strong_handle_witness :
  Forall protocol_op expiring ∧
  run id expiring init = Ok (final_state expiring) ∧
  Forall capacity (trajectory id expiring init) ∧
  weak (final_state expiring) !! 0%nat = Some (mkWeak (Some 0%nat)) ∧
  expired 0 (final_state expiring)
    = Ok (bool_decide (strong_refs (final_state expiring) 0 = 0%nat),
          final_state expiring).
Proof.
  assert (Forall protocol_op expiring) as Hp by (repeat constructor).
  assert (run id expiring init = Ok (final_state expiring)) as Hr
    by (vm_compute; reflexivity).
  assert (Forall capacity (trajectory id expiring init)) as Hc
    by (apply small_trajectory_capacity; vm_compute; reflexivity).
  assert (weak (final_state expiring) !! 0%nat = Some (mkWeak (Some 0%nat))) as Hw
    by (vm_compute; reflexivity).
  split; [exact Hp|]. split; [exact Hr|]. split; [exact Hc|]. split; [exact Hw|].
  exact (expired_iff_no_strong_handle id expiring _ 0%nat _ 0%nat Hp Hr Hc Hw eq_refl).
Defined.

(** X17 on the program [sharing]. *)
Lemma weak_count_counts_live_weak_handles_witness :
  Forall protocol_op sharing ∧
  run id sharing init = Ok (final_state sharing) ∧
  Forall capacity (trajectory id sharing init) ∧
  heap (final_state sharing) !! 0%nat
    = Some (mkCounter 2 1 (DirectPtrCounter some_object)) ∧
  get_weak_count 0 (final_state sharing)
    = Ok (Z.of_nat (weak_refs (final_state sharing) 0), final_state sharing).
Proof.
  assert (Forall protocol_op sharing) as Hp by (repeat constructor).
  assert (run id sharing init = Ok (final_state sharing)) as Hr
    by (vm_compute; reflexivity).
  assert (Forall capacity (trajectory id sharing init)) as Hc
    by (apply small_trajectory_capacity; vm_compute; reflexivity).
  assert (heap (final_state sharing) !! 0%nat
          = Some (mkCounter 2 1 (DirectPtrCounter some_object))) as Hb
    by (vm_compute; reflexivity).
  split; [exact Hp|]. split; [exact Hr|]. split; [exact Hc|]. split; [exact Hb|].
  exact (weak_count_counts_live_weak_handles id sharing _ 0%nat _ Hp Hr Hc Hb).
Defined.

(** X19 from the end of [expiring] to the end of [releasing]. *)
Lemma no_strong_handle_comes_back_witness :
  run id [WeakDestruct 0%nat; SharedDestruct 2%nat] (final_state expiring)
    = Ok (final_state releasing) ∧
  (0 < brk (final_state expiring))%nat ∧
  strong_refs (final_state expiring) 0 = 0%nat ∧
  strong_refs (final_state releasing) 0 = 0%nat.
Proof.
  assert (run id [WeakDestruct 0%nat; SharedDestruct 2%nat] (final_state expiring)
          = Ok (final_state releasing)) as Hr
    by (vm_compute; reflexivity).
  assert (0 < brk (final_state expiring))%nat as Hb
    by (vm_compute; lia).
  assert (strong_refs (final_state expiring) 0 = 0%nat) as Hz
    by (vm_compute; reflexivity).
  split; [exact Hr|]. split; [exact Hb|]. split; [exact Hz|].
  exact (proj1 (no_strong_handle_comes_back id _ _ _ 0%nat Hr Hb Hz)).
Defined.

(** X20 on the program [releasing]. *)
Lemma deallocate_never_precedes_destroy_witness :
  run id releasing init = Ok (final_state releasing) ∧
  Forall strong_capacity (trajectory id releasing init) ∧
  trace (final_state releasing)
    = [Allocate 0; Destroy 0; Delete (HeapObject 100)] ++ Deallocate 0 :: [] ∧
  In (Destroy 0) [Allocate 0; Destroy 0; Delete (HeapObject 100)].
Proof.
  assert (run id releasing init = Ok (final_state releasing)) as Hr
    by (vm_compute; reflexivity).
  assert (Forall strong_capacity (trajectory id releasing init)) as Hc
    by (apply small_trajectory_strong_capacity; vm_compute; reflexivity).
  assert (trace (final_state releasing)
          = [Allocate 0; Destroy 0; Delete (HeapObject 100)] ++ Deallocate 0 :: [])
    as Ht by (vm_compute; reflexivity).
  split; [exact Hr|]. split; [exact Hc|]. split; [exact Ht|].
  exact (deallocate_never_precedes_destroy id releasing _ Hr Hc 0%nat _ _ Ht).
Defined.

(** X21 on the program [sharing]: handles 0 and 2 share block 0. *)
Lemma handles_of_a_block_agree_on_get_witness :
  run id sharing init = Ok (final_state sharing) ∧
  Forall strong_capacity (trajectory id sharing init) ∧
  shared (final_state sharing) !! 0%nat = Some (mkShared (Some 0%nat) some_object) ∧
  shared (final_state sharing) !! 2%nat = Some (mkShared (Some 0%nat) some_object) ∧
  ∃ p, SharedPtr_get 0 (final_state sharing) = Ok (p, final_state sharing) ∧
       SharedPtr_get 2 (final_state sharing) = Ok (p, final_state sharing) ∧
       get_ptr 0 (final_state sharing) = Ok (p, final_state sharing).
Proof.
  assert (run id sharing init = Ok (final_state sharing)) as Hr
    by (vm_compute; reflexivity).
  assert (Forall strong_capacity (trajectory id sharing init)) as Hc
    by (apply small_trajectory_strong_capacity; vm_compute; reflexivity).
  assert (shared (final_state sharing) !! 0%nat
          = Some (mkShared (Some 0%nat) some_object)) as H1
    by (vm_compute; reflexivity).
  assert (shared (final_state sharing) !! 2%nat
          = Some (mkShared (Some 0%nat) some_object)) as H2
    by (vm_compute; reflexivity).
  split; [exact Hr|]. split; [exact Hc|]. split; [exact H1|]. split; [exact H2|].
  exact (handles_of_a_block_agree_on_get id sharing _ 0%nat 2%nat _ _ 0%nat
           Hr Hc H1 eq_refl H2 eq_refl).
Defined.

(** X22 on the block left by [expiring], whose only weak handle is
    copied and destroyed. *)
Lemma uncounted_weak_copy_dangles_witness :
  weak (final_state expiring) !! 0%nat = Some (mkWeak (Some 0%nat)) ∧
  heap (final_state expiring) !! 0%nat = Some (mkCounter 0 1 (DirectPtrCounter None)) ∧
  weak (final_state expiring) !! 1%nat = None ∧
  ∃ st',
    run id [WeakCopy 1%nat 0%nat; WeakDestruct 0%nat] (final_state expiring) = Ok st' ∧
    expired 1 st' = Fault DanglingCounter.
Proof.
  assert (weak (final_state expiring) !! 0%nat = Some (mkWeak (Some 0%nat))) as H1
    by (vm_compute; reflexivity).
  assert (heap (final_state expiring) !! 0%nat
          = Some (mkCounter 0 1 (DirectPtrCounter None))) as H2
    by (vm_compute; reflexivity).
  assert (weak (final_state expiring) !! 1%nat = None) as H3
    by (vm_compute; reflexivity).
  split; [exact H1|]. split; [exact H2|]. split; [exact H3|].
  destruct (uncounted_weak_copy_dangles id _ 0%nat 1%nat _ 0%nat _
              H1 eq_refl H2 eq_refl eq_refl H3)
    as (st' & E1 & _ & _ & _ & E2 & _).
  exists st'. split; [exact E1|exact E2].
Defined.

(** X23 on the initial state. *)
Lemma MakeShared_result_release_witness :
  shared (@init Z) !! 7%nat = None ∧
  ∃ st1 st2,
    MakeShared id 7 42 init = Ok (tt, st1) ∧
    exec (SharedPtr_destruct 7) st1 = Ok st2 ∧
    trace st2 = [Allocate 0; Allocate 1; Destroy 1; Delete (CounterObject 0);
                 Deallocate 1].
Proof.
  split; [reflexivity|].
  destruct (MakeShared_result_release id (@init Z) 7 42 eq_refl)
    as (st1 & st2 & E1 & E2 & E3 & _).
  exists st1, st2. split; [exact E1|]. split; [exact E2|exact E3].
Defined.

End FurtherInstances.
